(** * The Wordle solver of [wordle_solver.py], embedded and verified

    The class [WordleSolver] keeps a working list of candidate words, filters
    it after every guess with the per-letter feedback of the puzzle, and
    recommends the best scoring candidate.  The embedding follows the Python
    source method by method:

    - a [str] is a list of characters, [s[i]] is the partial lookup [s !! i]
      and raises [IndexError] out of range;
    - the attributes of the solver are the fields of the record [State];
      methods are computations of the state-and-exception monad [M], which
      returns the state reached also when an exception is raised (a pass that
      raises leaves the lists as they were when it started);
    - [collections.Counter] is a finite map whose lookup defaults to [0];
    - the [dict] of scores is an association list in insertion order, the
      order [max] iterates in;
    - Python's [float] arithmetic and [wordfreq.zipf_frequency] are external
      to the repository and are taken as the interface [Externals]. *)

From Stdlib Require Import ZArith Ascii String.
From stdpp Require Import gmap strings list sorting.

(** * The jumble solver of [jumble_solver.py] *)

Module JumbleSolver.

Local Open Scope char_scope.

(** A Python [str]. *)
Abbreviation str := (list ascii).

(** A string literal. *)
Definition s (lit : string) : str := list_ascii_of_string lit.

(** [itertools.permutations(pool)]: the rearrangements of the pool, in the
    lexicographic order of the positions; the element at each position in
    turn comes first, followed by the rearrangements of the others.  A
    tuple of characters joined by [''.join] is the string of them. *)
Fixpoint permutations_n {A} (n : nat) (pool : list A) : list (list A) :=
  match n with
  | 0 => [[]]
  | S n' =>
      mjoin (imap (λ i x, (x ::.) <$> permutations_n n' (delete i pool)) pool)
  end.

Definition permutations {A} (pool : list A) : list (list A) :=
  permutations_n (length pool) pool.

(** What a call ends with: the word returned, or the [KeyError] of [pop] on
    an empty set. *)
Inductive outcome :=
  | Returned (word : str)
  | KeyError.

(** [answer.pop()], the set given by its elements in the order it holds
    them. *)
Definition pop (answer : list str) : outcome :=
  match answer with
  | [] => KeyError
  | word :: _ => Returned word
  end.

(** What the program writes. *)
Inductive output :=
  | AskJumble (number : nat)
  | Solved (word : str)
  | AskLetters
  | FinalAnswer (word : str).

(** How the program ends. *)
Inductive ending :=
  | Exited
  | UncaughtKeyError
  | EOFError.

Record run := mkRun {
  stdout : list output;
  letter_list : str;
  ended : ending
}.

Section Solver.

(** [SpellChecker().known]: the words it finds in its dictionary, a set,
    given by its elements in the order the set holds them.  The spell
    checker is a library outside the repository. *)
Variable known : list str → list str.

(** [jumble_solver]. *)
Definition jumble_solver (scrambled : str) : outcome :=
  let all_permutations := permutations scrambled in
  let answer := known all_permutations in
  pop answer.

(** The loop [for i in range(4)] of the program, on the lines of the
    standard input: it ends the run, or goes on with the lines left. *)
Fixpoint jumble_loop (indices : list nat) (stdin : list str) (letters : str)
    (out : list output) : run + (list str * str * list output) :=
  match indices with
  | [] => inr (stdin, letters, out)
  | i :: indices =>
      let out := out ++ [AskJumble (i + 1)] in
      match stdin with
      | [] => inl (mkRun out letters EOFError)
      | jumble :: stdin =>
          match jumble_solver jumble with
          | KeyError => inl (mkRun out letters UncaughtKeyError)
          | Returned word =>
              let out := out ++ [Solved word; AskLetters] in
              match stdin with
              | [] => inl (mkRun out letters EOFError)
              | circled :: stdin =>
                  jumble_loop indices stdin (letters ++ circled) out
              end
          end
      end
  end.

(** The program. *)
Definition main (stdin : list str) : run :=
  match jumble_loop (seq 0 4) stdin [] [] with
  | inl r => r
  | inr (_, letters, out) =>
      match jumble_solver letters with
      | KeyError => mkRun out letters UncaughtKeyError
      | Returned word => mkRun (out ++ [FinalAnswer word]) letters Exited
      end
  end.

End Solver.

(** A spell checker with a dictionary of three words.  As the library
    does, it puts the words it is offered in lower case before it looks
    them up. *)
Definition sample_dictionary (word : str) : Prop :=
  word ∈ [s "cat"; s "dog"; s "code"].

Definition sample_lower (c : ascii) : ascii :=
  let n := N_of_ascii c in
  if (65 <=? n)%N && (n <=? 90)%N then ascii_of_N (n + 32) else c.

Definition sample_known (words : list str) : list str :=
  let lowered : list str := (λ w : str, sample_lower <$> w) <$> words in
  remove_dups (filter sample_dictionary lowered).

End JumbleSolver.

Module WordleSolver.

Local Open Scope Z_scope.
Local Open Scope char_scope.

(** ** Strings and the external collaborators *)

(** A Python [str]. *)
Abbreviation str := (list ascii).

(** A string literal, for concrete vocabularies and guesses. *)
Definition s (lit : string) : str := list_ascii_of_string lit.

(** The three symbols of a result key. *)
Definition ABSENT : ascii := "-".
Definition PRESENT_WRONG_POSITION : ascii := "y".
Definition CORRECT_POSITION : ascii := "g".

(** Python floats with the operations the solver uses ([float(n)], [+], [*]
    and [>]), and the word-commonality oracle [wordfreq.zipf_frequency(w, "en")]. *)
Class Externals := {
  float : Type;
  float_of_int : Z → float;
  float_add : float → float → float;
  float_mul : float → float → float;
  float_gt : float → float → bool;
  zipf_frequency : str → float
}.

(** [a < b] on floats, as the comparison [b > a] that [max] performs. *)
Definition float_lt `{E : Externals} (a b : float) : Prop := float_gt b a = true.

(** Floats that are not NaN form a strict weak order: incomparable values
    (equal numbers, [0.0] and [-0.0]) behave alike. *)
Definition negatively_transitive `{E : Externals} : Prop :=
  ∀ a b c : float, ¬ float_lt a b → ¬ float_lt b c → ¬ float_lt a c.

(** ** [collections.Counter] *)

(** [counter[c]]: a missing key counts [0]. *)
Definition counter_get (m : gmap ascii Z) (c : ascii) : Z := default 0 (m !! c).

(** [Counter(iterable)]: every element met adds one to its count. *)
Definition Counter (letters : list ascii) : gmap ascii Z :=
  foldl (λ m c, <[c := counter_get m c + 1]> m) ∅ letters.

(** ** A [dict] in insertion order *)

(** [d[k] = v]: an existing key keeps its place and takes the new value, a
    new key goes to the end. *)
Fixpoint dict_set {V} (k : str) (v : V) (d : list (str * V)) : list (str * V) :=
  match d with
  | [] => [(k, v)]
  | (k', v') :: d' =>
      if decide (k' = k) then (k, v) :: d' else (k', v') :: dict_set k v d'
  end.

(** [d.get(k)]. *)
Fixpoint dict_get {V} (k : str) (d : list (str * V)) : option V :=
  match d with
  | [] => None
  | (k', v') :: d' => if decide (k' = k) then Some v' else dict_get k d'
  end.

(** The keys of the dict, in iteration order. *)
Definition dict_keys {V} (d : list (str * V)) : list str := d.*1.

(** ** State and exceptions *)

(** The exceptions the solver's code can raise: indexing a string out of
    range, and [max] of an empty sequence. *)
Inductive exn := IndexError | ValueError.

(** The outcome of a call on an object with attributes [S]: a value or an
    exception, with the attributes the object is left with. *)
Inductive Res (S A : Type) :=
  | Ok (a : A) (st : S)
  | Raise (e : exn) (st : S).
Global Arguments Ok {S A} a st.
Global Arguments Raise {S A} e st.

Definition state_of {S A} (r : Res S A) : S :=
  match r with Ok _ st => st | Raise _ st => st end.

(** The exception a call ended with, if any. *)
Definition raised {S A} (r : Res S A) : option exn :=
  match r with Ok _ _ => None | Raise e _ => Some e end.

Definition M (S A : Type) : Type := S → Res S A.

Definition ret {S A} (a : A) : M S A := λ st, Ok a st.

Definition bind {S A B} (m : M S A) (k : A → M S B) : M S B :=
  λ st, match m st with
        | Ok a st' => k a st'
        | Raise e st' => Raise e st'
        end.

Definition raise {S A} (e : exn) : M S A := λ st, Raise e st.
Definition get {S} : M S S := λ st, Ok st st.
Definition modify {S} (f : S → S) : M S unit := λ st, Ok () (f st).

Notation "'let*' x := m 'in' k" := (bind m (λ x, k))
  (at level 10, x name, m at level 100, k at level 200, only parsing).
Notation "m ;;; k" := (bind m (λ _, k))
  (at level 100, k at level 200, right associativity, only parsing).

(** [for x in xs: body(x)]. *)
Fixpoint for_each {S A} (xs : list A) (body : A → M S unit) : M S unit :=
  match xs with
  | [] => ret ()
  | x :: xs' => body x ;;; for_each xs' body
  end.

(** [string[i]]. *)
Definition str_index {S} (string : str) (i : nat) : M S ascii :=
  match string !! i with
  | Some c => ret c
  | None => raise IndexError
  end.

(** A computation that leaves the attributes alone, also when it raises. *)
Definition stateless {S A} (m : M S A) : Prop := ∀ st, state_of (m st) = st.

(** ** The filter the feedback stands for *)

(** What one symbol of the result key asks of a candidate [w], for the
    letter guessed at position [i]. *)
Definition symbol_ok (w : str) (i : nat) (symbol letter : ascii) : Prop :=
  (symbol = ABSENT → letter ∉ w) ∧
  (symbol = CORRECT_POSITION → w !! i = Some letter) ∧
  (symbol = PRESENT_WRONG_POSITION → w !! i ≠ Some letter ∧ letter ∈ w).

Definition position_ok (guess key w : str) (i : nat) : Prop :=
  match key !! i, guess !! i with
  | Some symbol, Some letter => symbol_ok w i symbol letter
  | _, _ => True
  end.

(** The candidate [w] agrees with the feedback at every position. *)
Definition consistent (guess key w : str) : Prop :=
  Forall (position_ok guess key w) (seq 0 5).

(** A result key made of the three symbols only. *)
Definition valid_key (key : str) : Prop :=
  Forall (λ k, k ∈ [ABSENT; PRESENT_WRONG_POSITION; CORRECT_POSITION]) key.

(** The test the pass chosen for the character [k] applies to a word. *)
Definition pass_keeps (k g : ascii) (i : nat) (w : str) : Prop :=
  if decide (k = "-") then g ∉ w
  else if decide (k = "y") then w !! i ≠ Some g ∧ g ∈ w
  else w !! i = Some g.

Definition step_keeps (guess key w : str) (i : nat) : Prop :=
  match key !! i, guess !! i with
  | Some k, Some g => pass_keeps k g i w
  | _, _ => True
  end.

Global Instance symbol_ok_dec w i symbol letter :
  Decision (symbol_ok w i symbol letter).
Proof. unfold symbol_ok. apply _. Defined.

Global Instance position_ok_dec guess key w i :
  Decision (position_ok guess key w i).
Proof. unfold position_ok. destruct (key !! i), (guess !! i); apply _. Defined.

Global Instance consistent_dec guess key w : Decision (consistent guess key w).
Proof. unfold consistent. apply _. Defined.

Global Instance pass_keeps_dec k g i w : Decision (pass_keeps k g i w).
Proof. unfold pass_keeps. repeat case_decide; apply _. Defined.

Global Instance step_keeps_dec guess key w i :
  Decision (step_keeps guess key w i).
Proof. unfold step_keeps. destruct (key !! i), (guess !! i); apply _. Defined.

(** ** Letter statistics *)

(** How many times the letter occurs in a string. *)
Definition occurrences (c : ascii) (letters : list ascii) : Z :=
  Z.of_nat (length (filter (λ x, x = c) letters)).

(** The occurrences of the letter in all the words, summed. *)
Definition letter_occurrences (c : ascii) (words : list str) : Z :=
  foldr (λ w n, occurrences c w + n) 0 words.

(** The number of words that contain the letter at least once. *)
Definition words_containing (c : ascii) (words : list str) : Z :=
  Z.of_nat (length (filter (λ w : str, c ∈ w) words)).

(** The sum of the table's counts over the set of letters of the word. *)
Definition unique_letter_sum (letter_count : gmap ascii Z) (word : str) : Z :=
  set_fold (λ letter sum, sum + counter_get letter_count letter) 0
           (list_to_set word : gset ascii).

(** ** A concrete instance of the external collaborators *)

(** Scores in hundredths: [zipf_frequency] yields values with two decimals,
    so a number [x] is held as the integer [100 * x], exactly. *)
Definition sample_frequency (word : str) : Z :=
  if decide (word = s "apple") then 467
  else if decide (word = s "angle") then 436
  else if decide (word = s "table") then 512
  else if decide (word = s "hello") then 498
  else 0.

Definition centi : Externals := {|
  float := Z;
  float_of_int n := 100 * n;
  float_add a b := a + b;
  float_mul a b := a * b / 100;
  float_gt a b := bool_decide (b < a);
  zipf_frequency := sample_frequency
|}.

(** The vocabulary of the scenario of the specification. *)
Definition sample_words : list str := [s "apple"; s "angle"; s "table"].

Section Solver.
Context `{E : Externals}.

(** ** The solver's attributes *)

Record State := mkState {
  __valid_words : list str;
  __working_list : list str;
  __letter_count : gmap ascii Z;
  __scored_words : list (str * float);
  __current_guess : str;
  __guess_number : Z
}.

(** The class attributes before any solver is constructed. *)
Definition class_attributes : State :=
  mkState [] [] ∅ [] [] 0.

Definition set_valid_words (l : list str) (st : State) : State :=
  mkState l (__working_list st) (__letter_count st) (__scored_words st)
          (__current_guess st) (__guess_number st).

Definition set_working_list (l : list str) (st : State) : State :=
  mkState (__valid_words st) l (__letter_count st) (__scored_words st)
          (__current_guess st) (__guess_number st).

Definition set_letter_count (m : gmap ascii Z) (st : State) : State :=
  mkState (__valid_words st) (__working_list st) m (__scored_words st)
          (__current_guess st) (__guess_number st).

Definition set_scored_words (d : list (str * float)) (st : State) : State :=
  mkState (__valid_words st) (__working_list st) (__letter_count st) d
          (__current_guess st) (__guess_number st).

Definition set_current_guess (w : str) (st : State) : State :=
  mkState (__valid_words st) (__working_list st) (__letter_count st)
          (__scored_words st) w (__guess_number st).

Definition set_guess_number (n : Z) (st : State) : State :=
  mkState (__valid_words st) (__working_list st) (__letter_count st)
          (__scored_words st) (__current_guess st) n.

(** ** Scoring *)

(** [__get_letter_usage]: the letters of all the words of the working list,
    chained and counted. *)
Definition __get_letter_usage : M State (gmap ascii Z) :=
  let* st := get in
  ret (Counter (concat (__working_list st))).

(** The loop of [__get_word_score] over [list(set(word))]: the counts are
    integers, so the order in which the set yields its letters does not
    matter; each letter of the word is taken once. *)
Definition letter_score (letter_count : gmap ascii Z) (word : str) : Z :=
  foldl (λ score letter, score + counter_get letter_count letter) 0
        (remove_dups word).

(** [__get_word_score]: the integer letter score, to which the float
    [zipf_frequency(word, "en") * 2] is added. *)
Definition __get_word_score (word : str) : M State float :=
  let* st := get in
  let score := letter_score (__letter_count st) word in
  ret (float_add (float_of_int score)
                 (float_mul (zipf_frequency word) (float_of_int 2))).

(** [__score_words]. *)
Definition __score_words : M State unit :=
  modify (set_letter_count ∅) ;;;
  modify (set_scored_words []) ;;;
  let* usage := __get_letter_usage in
  modify (set_letter_count usage) ;;;
  let* st := get in
  for_each (__working_list st) (λ word,
    let* score := __get_word_score word in
    modify (λ st, set_scored_words (dict_set word score (__scored_words st)) st)).

(** ** The filtering passes *)

(** The loop shared by the three passes: [temp_list] collects the words the
    test keeps; the working list is not touched while the loop runs. *)
Fixpoint filter_loop (keep : str → M State bool) (words temp_list : list str)
  : M State (list str) :=
  match words with
  | [] => ret temp_list
  | word :: words' =>
      let* b := keep word in
      filter_loop keep words' (if b then temp_list ++ [word] else temp_list)
  end.

(** [self.__working_list.clear(); self.__working_list.extend(temp_list)]. *)
Definition update_working_list (temp_list : list str) : M State unit :=
  modify (set_working_list temp_list).

(** [__gray_letter]: keep the words without the letter. *)
Definition __gray_letter (letter : ascii) : M State unit :=
  let* st := get in
  let* temp_list :=
    filter_loop (λ word, ret (bool_decide (letter ∉ word)))
                (__working_list st) [] in
  update_working_list temp_list.

(** [__green_letter]: keep the words with the letter at the location. *)
Definition __green_letter (letter : ascii) (location : nat) : M State unit :=
  let* st := get in
  let* temp_list :=
    filter_loop (λ word,
                   let* c := str_index word location in
                   ret (bool_decide (c = letter)))
                (__working_list st) [] in
  update_working_list temp_list.

(** [__yellow_letter]: keep the words with another letter at the location
    and the letter somewhere. *)
Definition __yellow_letter (letter : ascii) (location : nat) : M State unit :=
  let* st := get in
  let* temp_list :=
    filter_loop (λ word,
                   let* c := str_index word location in
                   if bool_decide (c ≠ letter)
                   then ret (bool_decide (letter ∈ word))
                   else ret false)
                (__working_list st) [] in
  update_working_list temp_list.

(** The body of the loop of [__refine_working_list] at one index. *)
Definition refine_step (guess result_key : str) (index : nat) : M State unit :=
  let* k := str_index result_key index in
  if decide (k = "-") then
    let* g := str_index guess index in __gray_letter g
  else if decide (k = "y") then
    let* g := str_index guess index in __yellow_letter g index
  else
    let* g := str_index guess index in __green_letter g index.

(** The passes at the given indices, in the given order, and the rescoring. *)
Definition refine_in_order (indices : list nat) (guess result_key : str)
  : M State unit :=
  for_each indices (refine_step guess result_key) ;;;
  __score_words.

(** [__refine_working_list]: [for index in range(0, 5)]. *)
Definition __refine_working_list (guess result_key : str) : M State unit :=
  refine_in_order (seq 0 5) guess result_key.

(** ** The public interface *)

(** [__prepare_game]. *)
Definition __prepare_game : M State unit :=
  modify (set_working_list []) ;;;
  modify (λ st, set_working_list (__working_list st ++ __valid_words st) st) ;;;
  __score_words.

(** [__init__], given the lines of [valid_words.csv]. *)
Definition __init__ (lines : list str) : M State unit :=
  modify (λ st, set_valid_words (__valid_words st ++ lines) st) ;;;
  __prepare_game.

(** [WordleSolver()]: the solver constructed by the program. *)
Definition new_solver (lines : list str) : State :=
  state_of (__init__ lines class_attributes).

(** The first item of greatest score, as [max(items, key=itemgetter(1))]
    finds it: a later item replaces the best one only when its score is
    greater. *)
Definition max_item (first : str * float) (items : list (str * float))
  : str * float :=
  foldl (λ best item, if float_gt item.2 best.2 then item else best)
        first items.

(** The property [recommendation]. *)
Definition recommendation : M State str :=
  let* st := get in
  match __scored_words st with
  | [] => raise ValueError
  | item :: items => ret (max_item item items).1
  end.

(** [enter_guess]. *)
Definition enter_guess (word : str) : M State unit :=
  modify (set_current_guess word) ;;;
  modify (λ st, set_guess_number (__guess_number st + 1) st).

(** [enter_result]. *)
Definition enter_result (result_key : str) : M State unit :=
  let* st := get in
  __refine_working_list (__current_guess st) result_key.

(** The property [guess_number]. *)
Definition guess_number : M State Z :=
  let* st := get in ret (__guess_number st).

(** The property [remaining_possible_words]. *)
Definition remaining_possible_words : M State Z :=
  let* st := get in ret (Z.of_nat (length (__working_list st))).

(** ** Reachable states *)

(** The calls that change the solver. *)
Inductive call :=
  | EnterGuess (word : str)
  | EnterResult (result_key : str).

Definition exec (c : call) : M State unit :=
  match c with
  | EnterGuess word => enter_guess word
  | EnterResult result_key => enter_result result_key
  end.

(** The states of a solver constructed over the vocabulary [lines], after
    any sequence of calls that returned. *)
Inductive reachable (lines : list str) : State → Prop :=
  | reach_new : reachable lines (new_solver lines)
  | reach_call st c st' :
      reachable lines st → exec c st = Ok () st' → reachable lines st'.

(** The states of a solver constructed over the vocabulary [lines], after
    any sequence of calls, whether they returned or raised: a caller that
    catches the exception of a call goes on with the solver as the call
    left it. *)
Inductive attainable (lines : list str) : State → Prop :=
  | attain_new : attainable lines (new_solver lines)
  | attain_call st c :
      attainable lines st → attainable lines (state_of (exec c st)).

(** The attainable states whose tables are up to date: the solver has just
    been constructed, or [enter_result] has returned, from whatever state,
    and since then guesses may have been entered but no result. *)
Inductive up_to_date (lines : list str) : State → Prop :=
  | fresh_new : up_to_date lines (new_solver lines)
  | fresh_result st result_key st' :
      attainable lines st → enter_result result_key st = Ok () st' →
      up_to_date lines st'
  | fresh_guess st word st' :
      up_to_date lines st → enter_guess word st = Ok () st' →
      up_to_date lines st'.

(** The words of a list, each at its first occurrence: the keys of a dict
    filled by going through the list. *)
Definition first_occurrences (words : list str) : list str :=
  foldl (λ seen w, if decide (w ∈ seen) then seen else seen ++ [w]) [] words.

(** ** Closed forms used by the proofs *)

(** The shape the three passes share. *)
Definition filter_pass (keep : str → M State bool) : M State unit :=
  let* st := get in
  let* temp_list := filter_loop keep (__working_list st) [] in
  update_working_list temp_list.

(** The pass [__refine_working_list] chooses for the character [k]. *)
Definition pass_of (k g : ascii) (index : nat) : M State unit :=
  if decide (k = "-") then __gray_letter g
  else if decide (k = "y") then __yellow_letter g index
  else __green_letter g index.

(** The value [__get_word_score] returns under a given letter table. *)
Definition score_of (letter_count : gmap ascii Z) (word : str) : float :=
  float_add (float_of_int (letter_score letter_count word))
            (float_mul (zipf_frequency word) (float_of_int 2)).

(** The dict the loop of [__score_words] builds from [d]. *)
Definition score_table (letter_count : gmap ascii Z) (words : list str)
    (d : list (str * float)) : list (str * float) :=
  foldl (λ d word, dict_set word (score_of letter_count word) d) d words.

(** The state [__score_words] leaves. *)
Definition rescored (st : State) : State :=
  let usage := Counter (concat (__working_list st)) in
  set_scored_words (score_table usage (__working_list st) [])
                   (set_letter_count usage st).

(** A state whose words, guess and key all have the five positions. *)
Definition well_formed (key : str) (st : State) : Prop :=
  Forall (λ w : str, length w = 5%nat) (__working_list st) ∧
  length (__current_guess st) = 5%nat ∧
  length key = 5%nat.

(** ** Sequences of calls *)

(** The calls made on the solver one after the other, up to the first one
    that raises. *)
Definition run_calls (calls : list call) : M State unit :=
  for_each calls exec.

(** One round of the game, as the main loop plays it: the guess is entered,
    then the result the puzzle gave for it. *)
Definition play_round (round : str * str) : M State unit :=
  enter_guess round.1 ;;;
  enter_result round.2.

Definition play_rounds (rounds : list (str * str)) : M State unit :=
  for_each rounds play_round.

(** A round whose guess and key have five characters, the key made of the
    three symbols. *)
Definition valid_round (round : str * str) : Prop :=
  length round.1 = 5%nat ∧ length round.2 = 5%nat ∧ valid_key round.2.

(** The result key as the docstring of the class describes it: green for a
    letter in the correct spot, yellow for a letter that is in the word but
    in the wrong spot, gray for a letter that is not in the word at all. *)
Definition docstring_mark (puzzle_word guess : str) (i : nat) : ascii :=
  match guess !! i with
  | Some letter =>
      if decide (puzzle_word !! i = Some letter) then "g"
      else if decide (letter ∈ puzzle_word) then "y"
      else "-"
  | None => "-"
  end.

Definition docstring_key (puzzle_word guess : str) : str :=
  docstring_mark puzzle_word guess <$> seq 0 5.

(** ** The top recommendations *)

(** [sorted(items, key=lambda item: item[1], reverse=True)]: a stable sort
    into descending order of score.  An item goes after the items of greater
    score and before the others, so that items of equal score keep the order
    they come in; [sorted] compares with [<], and [a < b] on floats is
    [b > a]. *)
Fixpoint insert_descending (item : str * float) (sorted : list (str * float))
  : list (str * float) :=
  match sorted with
  | [] => [item]
  | item' :: rest =>
      if float_gt item'.2 item.2 then item' :: insert_descending item rest
      else item :: item' :: rest
  end.

Definition sorted_descending (items : list (str * float)) : list (str * float) :=
  foldr insert_descending [] items.

(** The slice [l[:n]]: a negative [n] counts from the end. *)
Definition slice_to {A} (n : Z) (l : list A) : list A :=
  if decide (0 ≤ n) then take (Z.to_nat n) l
  else take (length l - Z.to_nat (- n)) l.

(** [dict(pairs)]. *)
Definition dict_of (pairs : list (str * float)) : list (str * float) :=
  foldl (λ d item, dict_set item.1 item.2 d) [] pairs.

(** [__get_recommendation]. *)
Definition __get_recommendation (rec_count : Z) : M State (list (str * float)) :=
  let* st := get in
  ret (dict_of (slice_to rec_count (sorted_descending (__scored_words st)))).

(** No item of the list has a greater score than an item before it. *)
Definition descending (items : list (str * float)) : Prop :=
  StronglySorted (λ x y, ¬ float_lt x.2 y.2) items.

(** The number of guesses among the calls. *)
Fixpoint guesses_in (calls : list call) : Z :=
  match calls with
  | [] => 0
  | EnterGuess _ :: calls' => 1 + guesses_in calls'
  | EnterResult _ :: calls' => guesses_in calls'
  end.

(** The item is the first one of the list that no item exceeds: the items
    before it have a smaller score, the items after it no greater one. *)
Definition first_best (best : str * float) (items : list (str * float)) : Prop :=
  ∃ pre post,
    items = pre ++ best :: post ∧
    (∀ item, item ∈ pre → float_lt item.2 best.2) ∧
    (∀ item, item ∈ post → ¬ float_lt best.2 item.2).

(** ** The program *)

(** What the program writes: the prompts of [input], the block of
    instructions, the blank line, and the two status lines with the number
    of possible solutions and the recommendation they show. *)
Inductive output :=
  | AskInstructions
  | Instructions
  | FirstStatus (possible : Z) (recommended : str)
  | AskGuess (number : Z)
  | AskResult
  | BlankLine
  | Status (possible : Z) (recommended : str).

(** How the program ends: it runs to its end, an exception of the solver
    goes uncaught, or [input] finds no more line to read. *)
Inductive ending :=
  | Exited
  | Uncaught (e : exn)
  | EOFError.

(** A run of the program: what it wrote, the solver and the variable
    [result_key] as they are left, and how it ended. *)
Record run := mkRun {
  stdout : list output;
  wordle : State;
  result_key : str;
  ended : ending
}.

(** The rest of the program after a call of the solver: an exception ends
    the run. *)
Definition after {A} (r : Res State A) (out : list output) (key : str)
    (k : A → State → run) : run :=
  match r with
  | Ok a st => k a st
  | Raise e st => mkRun out st key (Uncaught e)
  end.

(** The [while] loop, reading the lines of the standard input. *)
Fixpoint game_loop (stdin : list str) (key : str) (st : State)
    (out : list output) : run :=
  after (guess_number st) out key (λ number st,
  if bool_decide (number < 6) && bool_decide (key ≠ s "ggggg") then
    after (guess_number st) out key (λ number st,
    let out := out ++ [AskGuess (number + 1)] in
    match stdin with
    | [] => mkRun out st key EOFError
    | line :: stdin =>
        after (if decide (line = []) then recommendation st else Ok line st)
              out key (λ guess st,
        after (enter_guess guess st) out key (λ _ st,
        let out := out ++ [AskResult] in
        match stdin with
        | [] => mkRun out st key EOFError
        | key :: stdin =>
            after (enter_result key st) out key (λ _ st,
            let out := out ++ [BlankLine] in
            after (remaining_possible_words st) out key (λ possible st,
            after (recommendation st) out key (λ recommended st,
            game_loop stdin key st (out ++ [Status possible recommended]))))
        end))
    end)
  else mkRun out st key Exited).

(** The program, given the lines of [valid_words.csv] and of the standard
    input. *)
Definition main (lines stdin : list str) : run :=
  let st := new_solver lines in
  let key := [] in
  let out := [AskInstructions] in
  match stdin with
  | [] => mkRun out st key EOFError
  | show_instructions :: stdin =>
      let out :=
        if bool_decide (show_instructions = s "Y" ∨ show_instructions = s "y")
        then out ++ [Instructions] else out in
      after (remaining_possible_words st) out key (λ possible st,
      after (recommendation st) out key (λ recommended st,
      game_loop stdin key st (out ++ [FirstStatus possible recommended])))
  end.

(** The prompts for a guess among what the program wrote. *)
Fixpoint guesses_asked (out : list output) : nat :=
  match out with
  | [] => 0
  | AskGuess _ :: out' => S (guesses_asked out')
  | _ :: out' => guesses_asked out'
  end.

(** Input lines of the length the game has: a guess of five letters or an
    empty line, a result of five characters. *)
Fixpoint well_formed_input (stdin : list str) : Prop :=
  match stdin with
  | guess :: key :: stdin' =>
      (guess = [] ∨ length guess = 5%nat) ∧ length key = 5%nat ∧
      well_formed_input stdin'
  | [guess] => guess = [] ∨ length guess = 5%nat
  | [] => True
  end.

(** What holds of every run of the loop: at most six guesses are counted
    and at most [asked] asked for; the loop is left with six guesses made or
    on the key [ggggg]; an uncaught exception is [ValueError] with no
    candidate left, or [IndexError] on input that is not well formed. *)
Definition run_ok (lines : list str) (asked : nat) (stdin : list str)
    (r : run) : Prop :=
  __guess_number (wordle r) ≤ 6 ∧
  (guesses_asked (stdout r) ≤ asked)%nat ∧
  (ended r = Exited →
   __guess_number (wordle r) = 6 ∨ result_key r = s "ggggg") ∧
  (∀ e, ended r = Uncaught e →
     (e = ValueError ∧ __working_list (wordle r) = []) ∨
     (e = IndexError ∧
      ¬ (Forall (λ w : str, length w = 5%nat) lines ∧ well_formed_input stdin))).

End Solver.

(** ** Sample solvers *)

Definition sample_solver : @State centi := new_solver sample_words.

(** The sample solver after the guess [crane]. *)
Definition sample_guessed : @State centi :=
  state_of (enter_guess (s "crane") sample_solver).

(** A vocabulary file with a repeated line. *)
Definition repeated_words : list str := [s "hello"; s "hello"].

(** The sample solver after the guess [table] and a result key of one
    character, which makes [enter_result] raise once the first pass is
    done. *)
Definition sample_stale : @State centi :=
  state_of (enter_result (s "-")
                         (state_of (enter_guess (s "table") sample_solver))).

Section Proofs.
Context `{E : Externals}.

(** ** Lemmas *)

(** *** The loops and the passes *)

Lemma set_working_list_id (st : State) : set_working_list (__working_list st) st = st.
Proof. by destruct st. Qed.

Lemma filter_loop_state keep words temp_list st :
  (∀ w, stateless (keep w)) →
  state_of (filter_loop keep words temp_list st) = st.
Proof.
  intros Hk. revert temp_list.
  induction words as [|w words IH]; intros temp_list; simpl; [done|].
  unfold bind. specialize (Hk w st).
  destruct (keep w st) as [b st'|e st']; simpl in Hk; subst; [apply IH|done].
Qed.

Lemma filter_loop_sublist keep words temp_list st l st' :
  filter_loop keep words temp_list st = Ok l st' →
  ∃ l', l = temp_list ++ l' ∧ l' `sublist_of` words.
Proof.
  revert temp_list st.
  induction words as [|w words IH]; intros temp_list st; simpl.
  - intros [= <- <-]. exists []. by rewrite app_nil_r.
  - unfold bind. destruct (keep w st) as [b st1|e st1]; [|done].
    intros Hl. apply IH in Hl as (l' & -> & Hsub). destruct b.
    + exists (w :: l'). rewrite <-app_assoc. split; [done|]. by constructor.
    + exists l'. split; [done|]. by constructor.
Qed.

Lemma filter_loop_ok keep (P : str → Prop) `{∀ w, Decision (P w)} words temp_list st :
  (∀ w, w ∈ words → keep w st = Ok (bool_decide (P w)) st) →
  filter_loop keep words temp_list st = Ok (temp_list ++ filter P words) st.
Proof.
  revert temp_list.
  induction words as [|w words IH]; intros temp_list Hk; simpl.
  - by rewrite app_nil_r.
  - unfold bind. rewrite Hk by left.
    rewrite IH by (intros; apply Hk; by right).
    rewrite filter_cons. case_bool_decide; case_decide; try done.
    by rewrite <-app_assoc.
Qed.

Lemma filter_pass_result keep st :
  (∀ w, stateless (keep w)) →
  ∃ l, l `sublist_of` __working_list st ∧
       state_of (filter_pass keep st) = set_working_list l st.
Proof.
  intros Hk. unfold filter_pass, bind, get, update_working_list, modify.
  pose proof (filter_loop_state keep (__working_list st) [] st Hk) as Hst.
  destruct (filter_loop keep (__working_list st) [] st) as [l st'|e st'] eqn:Hl;
    simpl in Hst; subst st'; simpl.
  - apply filter_loop_sublist in Hl as (l' & -> & Hsub). by exists l'.
  - exists (__working_list st). by rewrite set_working_list_id.
Qed.

Lemma filter_pass_ok keep (P : str → Prop) `{∀ w, Decision (P w)} st :
  (∀ w, w ∈ __working_list st → keep w st = Ok (bool_decide (P w)) st) →
  filter_pass keep st = Ok () (set_working_list (filter P (__working_list st)) st).
Proof.
  intros Hk. unfold filter_pass, bind, get.
  by rewrite (filter_loop_ok keep P).
Qed.

Lemma pass_of_result k g index st :
  ∃ l, l `sublist_of` __working_list st ∧
       state_of (pass_of k g index st) = set_working_list l st.
Proof.
  unfold pass_of. repeat case_decide.
  - apply (filter_pass_result (λ word, ret (bool_decide (g ∉ word)))). done.
  - apply (filter_pass_result (λ word,
             let* c := str_index word index in
             if bool_decide (c ≠ g) then ret (bool_decide (g ∈ word)) else ret false)).
    intros w st'. unfold bind, str_index. destruct (w !! index); [|done].
    simpl. by case_bool_decide.
  - apply (filter_pass_result (λ word,
             let* c := str_index word index in ret (bool_decide (c = g)))).
    intros w st'. unfold bind, str_index. by destruct (w !! index).
Qed.

Lemma gray_letter_ok letter st :
  __gray_letter letter st =
  Ok () (set_working_list (filter (λ w : str, letter ∉ w) (__working_list st)) st).
Proof. by apply (filter_pass_ok _ (λ w : str, letter ∉ w)). Qed.

Lemma green_letter_ok letter location st :
  Forall (λ w : str, is_Some (w !! location)) (__working_list st) →
  __green_letter letter location st =
  Ok () (set_working_list
           (filter (λ w : str, w !! location = Some letter) (__working_list st)) st).
Proof.
  intros Hwf. apply (filter_pass_ok _ (λ w : str, w !! location = Some letter)).
  intros w Hw. rewrite Forall_forall in Hwf. destruct (Hwf w Hw) as [c Hc].
  unfold bind, str_index. rewrite Hc. simpl. unfold ret. f_equal.
  apply bool_decide_ext. naive_solver.
Qed.

Lemma yellow_letter_ok letter location st :
  Forall (λ w : str, is_Some (w !! location)) (__working_list st) →
  __yellow_letter letter location st =
  Ok () (set_working_list
           (filter (λ w : str, w !! location ≠ Some letter ∧ letter ∈ w)
                   (__working_list st)) st).
Proof.
  intros Hwf.
  apply (filter_pass_ok _ (λ w : str, w !! location ≠ Some letter ∧ letter ∈ w)).
  intros w Hw. rewrite Forall_forall in Hwf. destruct (Hwf w Hw) as [c Hc].
  unfold bind, str_index. rewrite Hc. simpl.
  case_bool_decide as Hne; unfold ret; f_equal; symmetry.
  - apply bool_decide_ext.
    split; [by intros [_ ?]|]. intros ?. split; [congruence|done].
  - apply bool_decide_eq_false. intros [Hne' _].
    apply Hne'. f_equal. by destruct (decide (c = letter)).
Qed.

(** *** Scoring and the steps of the refinement *)

Lemma score_loop_ok words st :
  for_each words (λ word,
    let* score := __get_word_score word in
    modify (λ st, set_scored_words (dict_set word score (__scored_words st)) st)) st
  = Ok () (set_scored_words
             (score_table (__letter_count st) words (__scored_words st)) st).
Proof.
  revert st. induction words as [|w words IH]; intros st; simpl.
  - by destruct st.
  - unfold bind at 1. unfold bind at 1. simpl. rewrite IH. by destruct st.
Qed.

Lemma score_words_ok st : __score_words st = Ok () (rescored st).
Proof.
  unfold __score_words, bind, modify, __get_letter_usage, get, ret.
  simpl. rewrite score_loop_ok. by destruct st.
Qed.

Lemma refine_step_eq guess key i st :
  refine_step guess key i st =
  match key !! i with
  | None => Raise IndexError st
  | Some k =>
      match guess !! i with
      | None => Raise IndexError st
      | Some g => pass_of k g i st
      end
  end.
Proof.
  unfold refine_step, pass_of, bind, str_index.
  destruct (key !! i) as [k|]; [|done]. simpl.
  repeat case_decide; by destruct (guess !! i).
Qed.

Lemma pass_of_ok k g i st :
  Forall (λ w : str, is_Some (w !! i)) (__working_list st) →
  pass_of k g i st =
  Ok () (set_working_list (filter (pass_keeps k g i) (__working_list st)) st).
Proof.
  intros Hwf. unfold pass_of.
  repeat case_decide.
  - rewrite gray_letter_ok. do 2 f_equal. apply list_filter_iff.
    intros w. unfold pass_keeps. by rewrite decide_True.
  - rewrite yellow_letter_ok by done. do 2 f_equal. apply list_filter_iff.
    intros w. unfold pass_keeps. by rewrite decide_False, decide_True.
  - rewrite green_letter_ok by done. do 2 f_equal. apply list_filter_iff.
    intros w. unfold pass_keeps. by rewrite !decide_False.
Qed.

Lemma filter_all {A} (P : A → Prop) `{∀ x, Decision (P x)} (l : list A) :
  Forall P l → filter P l = l.
Proof.
  induction 1 as [|x l Hx Hl IH]; [done|].
  by rewrite filter_cons_True, IH.
Qed.

Lemma refine_step_result guess key i st :
  ∃ l, l `sublist_of` __working_list st ∧
       state_of (refine_step guess key i st) = set_working_list l st.
Proof.
  rewrite refine_step_eq.
  destruct (key !! i) as [k|]; [destruct (guess !! i) as [g|]|].
  - apply pass_of_result.
  - exists (__working_list st). by rewrite set_working_list_id.
  - exists (__working_list st). by rewrite set_working_list_id.
Qed.

Lemma refine_loop_result guess key indices st :
  ∃ l, l `sublist_of` __working_list st ∧
       state_of (for_each indices (refine_step guess key) st) = set_working_list l st.
Proof.
  revert st. induction indices as [|i indices IH]; intros st; simpl.
  - exists (__working_list st). by rewrite set_working_list_id.
  - unfold bind.
    destruct (refine_step_result guess key i st) as (l1 & Hl1 & Hst1).
    destruct (refine_step guess key i st) as [[] st1|e st1]; simpl in Hst1; subst st1.
    + destruct (IH (set_working_list l1 st)) as (l2 & Hl2 & Hst2).
      exists l2. split; [by etrans|]. by rewrite Hst2.
    + by exists l1.
Qed.

Lemma refine_in_order_result indices guess key st :
  ∃ l, l `sublist_of` __working_list st ∧
       (refine_in_order indices guess key st = Ok () (rescored (set_working_list l st)) ∨
        ∃ e, refine_in_order indices guess key st = Raise e (set_working_list l st)).
Proof.
  destruct (refine_loop_result guess key indices st) as (l & Hl & Hst).
  exists l. split; [done|]. unfold refine_in_order, bind.
  destruct (for_each indices (refine_step guess key) st) as [[] st1|e st1];
    simpl in Hst; subst st1.
  - left. apply score_words_ok.
  - right. by exists e.
Qed.

Lemma refine_loop_ok guess key indices st :
  (∀ i, i ∈ indices →
     is_Some (key !! i) ∧ is_Some (guess !! i) ∧
     Forall (λ w : str, is_Some (w !! i)) (__working_list st)) →
  for_each indices (refine_step guess key) st =
  Ok () (set_working_list
           (filter (λ w, Forall (step_keeps guess key w) indices) (__working_list st)) st).
Proof.
  revert st. induction indices as [|i indices IH]; intros st Hwf; simpl.
  - unfold ret. f_equal. rewrite filter_all; [by destruct st|].
    apply Forall_forall. intros w _. constructor.
  - destruct (Hwf i) as ([k Hk] & [g Hg] & Hws); [left|].
    unfold bind. rewrite refine_step_eq, Hk, Hg, pass_of_ok by done.
    rewrite IH.
    + unfold set_working_list. simpl. do 2 f_equal.
      rewrite list_filter_filter. apply list_filter_iff.
      intros w. rewrite Forall_cons.
      unfold step_keeps at 2. rewrite Hk, Hg. tauto.
    + intros j Hj. destruct (Hwf j) as (? & ? & Hwsj); [by right|].
      split_and!; [done..|]. simpl.
      rewrite Forall_forall in Hwsj |- *. intros w Hw. apply Hwsj.
      by apply list_elem_of_filter in Hw as [_ ?].
Qed.

(** *** Dicts *)

Lemma dict_keys_set_old {V} k (v : V) d :
  k ∈ dict_keys d → dict_keys (dict_set k v d) = dict_keys d.
Proof.
  unfold dict_keys. induction d as [|[k' v'] d IH]; csimpl.
  - by intros ?%elem_of_nil.
  - intros Hin. destruct (decide (k' = k)) as [->|Hne]; csimpl; [done|].
    apply elem_of_cons in Hin as [?|?]; [congruence|]. by rewrite IH.
Qed.

Lemma dict_keys_set_new {V} k (v : V) d :
  k ∉ dict_keys d → dict_keys (dict_set k v d) = dict_keys d ++ [k].
Proof.
  unfold dict_keys. induction d as [|[k' v'] d IH]; csimpl; [done|].
  intros Hnin. apply not_elem_of_cons in Hnin as [? ?].
  rewrite decide_False by done. csimpl. by rewrite IH.
Qed.

Lemma dict_keys_set {V} k (v : V) d :
  dict_keys (dict_set k v d) =
  if decide (k ∈ dict_keys d) then dict_keys d else dict_keys d ++ [k].
Proof.
  case_decide; [by apply dict_keys_set_old|by apply dict_keys_set_new].
Qed.

Lemma dict_get_set_eq {V} k (v : V) d : dict_get k (dict_set k v d) = Some v.
Proof.
  induction d as [|[k' v'] d IH]; simpl.
  - by rewrite decide_True.
  - destruct (decide (k' = k)); simpl; [by rewrite decide_True|].
    by rewrite decide_False.
Qed.

Lemma dict_get_set_ne {V} k k' (v : V) d :
  k ≠ k' → dict_get k' (dict_set k v d) = dict_get k' d.
Proof.
  intros Hne. induction d as [|[k0 v0] d IH]; simpl.
  - by rewrite decide_False.
  - destruct (decide (k0 = k)) as [->|]; simpl.
    + by rewrite !decide_False.
    + by rewrite IH.
Qed.

Lemma dict_keys_set_NoDup {V} k (v : V) d :
  NoDup (dict_keys d) → NoDup (dict_keys (dict_set k v d)).
Proof.
  intros Hd. rewrite dict_keys_set. case_decide; [done|].
  apply NoDup_app. split_and!; [done| |apply NoDup_singleton].
  intros x Hx ->%list_elem_of_singleton. done.
Qed.

Lemma dict_get_elem_of {V} k (v : V) d :
  NoDup (dict_keys d) → dict_get k d = Some v ↔ (k, v) ∈ d.
Proof.
  unfold dict_keys. induction d as [|[k' v'] d IH]; csimpl.
  - intros _. split; [done|]. by intros ?%elem_of_nil.
  - intros [Hk' Hd]%NoDup_cons. rewrite elem_of_cons.
    destruct (decide (k' = k)) as [->|Hne].
    + split; [intros [= ->]; by left|].
      intros [[= ->]|Hin]; [done|]. destruct Hk'.
      apply list_elem_of_fmap. by exists (k, v).
    + rewrite IH by done. split; [by right|]. intros [[= ? ?]|?]; [congruence|done].
Qed.

(** *** Counters *)

Lemma counter_get_insert m c n c' :
  counter_get (<[c := n]> m) c' = if decide (c = c') then n else counter_get m c'.
Proof.
  unfold counter_get. rewrite lookup_insert. by case_decide.
Qed.

Lemma Counter_fold_get letters m c :
  counter_get (foldl (λ m c, <[c := counter_get m c + 1]> m) m letters) c =
  counter_get m c + occurrences c letters.
Proof.
  unfold occurrences. revert m.
  induction letters as [|x letters IH]; intros m; simpl; [lia|].
  rewrite IH, counter_get_insert, filter_cons.
  destruct (decide (x = c)) as [->|]; simpl; lia.
Qed.

Lemma Counter_get letters c : counter_get (Counter letters) c = occurrences c letters.
Proof. unfold Counter. by rewrite Counter_fold_get. Qed.

(** *** Score table *)

Lemma score_table_cons usage w words d :
  score_table usage (w :: words) d =
  score_table usage words (dict_set w (score_of usage w) d).
Proof. done. Qed.

Lemma score_table_NoDup usage words d :
  NoDup (dict_keys d) → NoDup (dict_keys (score_table usage words d)).
Proof.
  revert d. induction words as [|w words IH]; intros d Hd; [done|].
  rewrite score_table_cons. by apply IH, dict_keys_set_NoDup.
Qed.

Lemma score_table_keys usage words d k :
  k ∈ dict_keys (score_table usage words d) ↔ k ∈ dict_keys d ∨ k ∈ words.
Proof.
  revert d. induction words as [|w words IH]; intros d.
  - simpl. rewrite elem_of_nil. tauto.
  - rewrite score_table_cons, IH, dict_keys_set, elem_of_cons.
    case_decide as Hin.
    + split; [tauto|]. intros [?|[->|?]]; tauto.
    + rewrite elem_of_app, list_elem_of_singleton. tauto.
Qed.

Lemma score_table_keys_fresh usage words d :
  NoDup (dict_keys d ++ words) →
  dict_keys (score_table usage words d) = dict_keys d ++ words.
Proof.
  revert d. induction words as [|w words IH]; intros d Hd.
  - by rewrite app_nil_r.
  - rewrite score_table_cons.
    apply NoDup_app in Hd as (Hd & Hdisj & [Hw Hwords]%NoDup_cons).
    assert (w ∉ dict_keys d) as Hfresh.
    { intros Hin. apply (Hdisj w Hin). left. }
    rewrite IH; rewrite dict_keys_set_new by done.
    + by rewrite <-app_assoc.
    + rewrite <-app_assoc. simpl. apply NoDup_app. split_and!; [done| |by constructor].
      intros x Hx. by apply Hdisj.
Qed.

Lemma score_table_get_keep usage words d w v :
  dict_get w d = Some v → (w ∈ words → v = score_of usage w) →
  dict_get w (score_table usage words d) = Some v.
Proof.
  revert d. induction words as [|w' words IH]; intros d Hd Hv; [done|].
  rewrite score_table_cons. apply IH.
  - destruct (decide (w' = w)) as [->|Hne].
    + rewrite dict_get_set_eq. f_equal. symmetry. apply Hv. left.
    + by rewrite dict_get_set_ne.
  - intros Hin. apply Hv. by right.
Qed.

Lemma score_table_get usage words d w :
  w ∈ words → dict_get w (score_table usage words d) = Some (score_of usage w).
Proof.
  revert d. induction words as [|w' words IH]; intros d Hin.
  - by apply elem_of_nil in Hin.
  - rewrite score_table_cons. destruct (decide (w' = w)) as [->|Hne].
    + apply score_table_get_keep; [apply dict_get_set_eq|done].
    + apply IH. apply elem_of_cons in Hin as [?|?]; [congruence|done].
Qed.

(** *** Maximum *)

Lemma max_item_cons first item items :
  max_item first (item :: items) =
  max_item (if float_gt item.2 first.2 then item else first) items.
Proof. done. Qed.

Lemma max_item_strict first items :
  StrictOrder float_lt →
  let best := max_item first items in
  best ∈ first :: items ∧
  (best = first ∨ float_lt first.2 best.2) ∧
  ∀ item, item ∈ first :: items → ¬ float_lt best.2 item.2.
Proof.
  intros Hord. revert first.
  induction items as [|x items IH]; intros first; simpl.
  - split_and!; [left|by left|].
    intros item ->%list_elem_of_singleton. apply irreflexivity, _.
  - fold (max_item (if float_gt x.2 first.2 then x else first) items).
    destruct (IH (if float_gt x.2 first.2 then x else first)) as (Hin & Hge & Hmax).
    set (best := max_item _ items) in *.
    destruct (float_gt x.2 first.2) eqn:Hgt.
    + assert (float_lt first.2 best.2) as Hlt.
      { destruct Hge as [->|Hlt]; [done|]. by etrans. }
      split_and!; [by right|by right|].
      intros item [->|Hitem]%elem_of_cons; [|by apply Hmax].
      intros Hlt'. by apply (irreflexivity float_lt first.2); etrans.
    + split_and!.
      * apply elem_of_cons in Hin as [->|Hin]; [left|right; by right].
      * done.
      * intros item [->|[->|Hitem]%elem_of_cons]%elem_of_cons.
        -- apply Hmax. left.
        -- intros Hlt. destruct Hge as [Heq|Hlt0].
           ++ rewrite Heq in Hlt. unfold float_lt in Hlt. congruence.
           ++ assert (float_lt first.2 x.2) as Hc by (by etrans).
              unfold float_lt in Hc. congruence.
        -- apply Hmax. by right.
Qed.

Lemma max_item_earliest first items :
  StrictOrder float_lt → negatively_transitive →
  ∃ pre post,
    first :: items = pre ++ max_item first items :: post ∧
    (∀ item, item ∈ pre → float_lt item.2 (max_item first items).2) ∧
    (∀ item, item ∈ post → ¬ float_lt (max_item first items).2 item.2).
Proof.
  intros Hord Hneg. revert first.
  induction items as [|x items IH]; intros first.
  - exists [], []. split_and!; [done|by intros ? ?%elem_of_nil..].
  - rewrite max_item_cons.
    destruct (IH (if float_gt x.2 first.2 then x else first))
      as (pre & post & Heq & Hpre & Hpost).
    remember (max_item (if float_gt x.2 first.2 then x else first) items)
      as best eqn:Hbest. clear Hbest IH.
    destruct (float_gt x.2 first.2) eqn:Hgt.
    + exists (first :: pre), post. rewrite Heq. split_and!; [done| |done].
      intros item [->|Hitem]%elem_of_cons; [|by apply Hpre].
      destruct pre as [|y pre]; simpl in Heq; injection Heq as Hhd Htl.
      * by rewrite <-Hhd.
      * subst y. trans x.2; [done|]. apply Hpre. left.
    + destruct pre as [|y pre]; simpl in Heq; injection Heq as Hhd Htl.
      * exists [], (x :: items). subst best post.
        split_and!; [done|by intros ? ?%elem_of_nil|].
        intros item [->|Hitem]%elem_of_cons; [|by apply Hpost].
        unfold float_lt. congruence.
      * exists (y :: x :: pre), post. subst y items.
        split_and!; [done| |done].
        intros item [->|[->|Hitem]%elem_of_cons]%elem_of_cons.
        -- apply Hpre. left.
        -- destruct (float_gt best.2 x.2) eqn:Hbx; [done|].
           destruct (Hneg first.2 x.2 best.2).
           ++ unfold float_lt. congruence.
           ++ unfold float_lt. congruence.
           ++ apply Hpre. left.
        -- apply Hpre. by right.
Qed.

(** *** Reachable states *)

Lemma rescored_fixed st :
  rescored st = st ↔
  __letter_count st = Counter (concat (__working_list st)) ∧
  __scored_words st = score_table (__letter_count st) (__working_list st) [].
Proof.
  destruct st as [vw wl lc sw cg gn]. unfold rescored. simpl. split.
  - intros [= <- <-]. done.
  - intros [-> ->]. done.
Qed.

Lemma init_ok lines :
  __init__ lines class_attributes = Ok () (rescored (mkState lines lines ∅ [] [] 0)).
Proof.
  unfold __init__, __prepare_game, bind, modify. simpl.
  by rewrite score_words_ok.
Qed.

Lemma new_solver_eq lines :
  new_solver lines = rescored (mkState lines lines ∅ [] [] 0).
Proof. unfold new_solver. by rewrite init_ok. Qed.

Lemma enter_result_result key st :
  ∃ l, l `sublist_of` __working_list st ∧
       (enter_result key st = Ok () (rescored (set_working_list l st)) ∨
        ∃ e, enter_result key st = Raise e (set_working_list l st)).
Proof. apply refine_in_order_result. Qed.

Lemma exec_result c st :
  ∃ l, l `sublist_of` __working_list st ∧
       __working_list (state_of (exec c st)) = l ∧
       __valid_words (state_of (exec c st)) = __valid_words st.
Proof.
  destruct c as [word|key]; simpl.
  - by exists (__working_list st).
  - destruct (enter_result_result key st) as (l & Hl & [->|[e ->]]); by exists l.
Qed.

Lemma reachable_inv lines st :
  reachable lines st →
  rescored st = st ∧ __valid_words st = lines ∧ __working_list st `sublist_of` lines.
Proof.
  induction 1 as [|st c st' Hreach (Hsync & Hvalid & Hsub) Hexec].
  - by rewrite new_solver_eq.
  - destruct c as [word|key]; simpl in Hexec.
    + injection Hexec as <-. split_and!; [|done..].
      apply rescored_fixed. by apply rescored_fixed in Hsync.
    + destruct (enter_result_result key st) as (l & Hl & [Hr|[e Hr]]);
        rewrite Hr in Hexec; [|done].
      injection Hexec as <-. split_and!; [done|done|]. simpl. by etrans.
Qed.

(** *** Feedback of the right shape *)

Lemma pass_keeps_symbol_ok k g i w :
  k ∈ [ABSENT; PRESENT_WRONG_POSITION; CORRECT_POSITION] →
  pass_keeps k g i w ↔ symbol_ok w i k g.
Proof.
  unfold pass_keeps, symbol_ok, ABSENT, PRESENT_WRONG_POSITION, CORRECT_POSITION.
  intros Hk. repeat apply elem_of_cons in Hk as [->|Hk];
    [..|by apply elem_of_nil in Hk]; simpl;
    (split; [intros ?; split_and!; intros Heq; try discriminate Heq; done|]);
    intros (H1 & H2 & H3); auto.
Qed.

Lemma step_keeps_position_ok guess key w i :
  valid_key key → step_keeps guess key w i ↔ position_ok guess key w i.
Proof.
  intros Hkey. unfold step_keeps, position_ok.
  destruct (key !! i) as [k|] eqn:Hk; [|done].
  destruct (guess !! i) as [g|]; [|done].
  apply pass_keeps_symbol_ok.
  unfold valid_key in Hkey. rewrite Forall_forall in Hkey.
  apply Hkey. by eapply list_elem_of_lookup_2.
Qed.

Lemma refine_in_order_steps indices key st :
  well_formed key st → (∀ i, i ∈ indices → i < 5)%nat →
  refine_in_order indices (__current_guess st) key st =
  Ok () (rescored (set_working_list
                     (filter (λ w, Forall (step_keeps (__current_guess st) key w) indices)
                             (__working_list st)) st)).
Proof.
  intros (Hwords & Hguess & Hkey) Hlt.
  unfold refine_in_order, bind. rewrite refine_loop_ok.
  - by rewrite score_words_ok.
  - intros i Hi%Hlt. split_and!.
    + apply lookup_lt_is_Some. lia.
    + apply lookup_lt_is_Some. lia.
    + eapply Forall_impl; [done|]. intros w Hw. apply lookup_lt_is_Some.
      simpl in Hw. lia.
Qed.

Lemma refine_in_order_ok indices key st :
  well_formed key st → valid_key key → indices ≡ₚ seq 0 5 →
  refine_in_order indices (__current_guess st) key st =
  Ok () (rescored (set_working_list
                     (filter (consistent (__current_guess st) key)
                             (__working_list st)) st)).
Proof.
  intros Hwf Hvalid Hperm. rewrite refine_in_order_steps; [|done|].
  - do 3 f_equal. apply list_filter_iff. intros w.
    unfold consistent. rewrite <-Hperm. apply Forall_iff. intros i.
    by apply step_keeps_position_ok.
  - intros i Hi. rewrite Hperm in Hi. apply elem_of_seq in Hi. lia.
Qed.

Lemma enter_result_steps key st :
  well_formed key st →
  enter_result key st =
  Ok () (rescored (set_working_list
                     (filter (λ w, Forall (step_keeps (__current_guess st) key w) (seq 0 5))
                             (__working_list st)) st)).
Proof.
  intros Hwf. apply (refine_in_order_steps (seq 0 5)); [done|].
  intros i Hi%elem_of_seq. lia.
Qed.

Lemma enter_result_ok key st :
  well_formed key st → valid_key key →
  enter_result key st =
  Ok () (rescored (set_working_list
                     (filter (consistent (__current_guess st) key)
                             (__working_list st)) st)).
Proof. intros Hwf Hvalid. by apply (refine_in_order_ok (seq 0 5)). Qed.

Lemma reachable_words_length lines st :
  Forall (λ w : str, length w = 5%nat) lines → reachable lines st →
  Forall (λ w : str, length w = 5%nat) (__working_list st).
Proof.
  intros Hlines Hreach. apply reachable_inv in Hreach as (_ & _ & Hsub).
  rewrite Forall_forall in Hlines |- *. intros w Hw.
  by eapply Hlines, elem_of_sublist.
Qed.

Lemma dict_get_is_Some {V} k (d : list (str * V)) :
  is_Some (dict_get k d) ↔ k ∈ dict_keys d.
Proof.
  unfold dict_keys. induction d as [|[k' v'] d IH]; csimpl.
  - rewrite elem_of_nil. split; [by intros [? ?]|done].
  - rewrite elem_of_cons. destruct (decide (k' = k)) as [->|Hne].
    + split; [by left|by eexists].
    + rewrite IH. split; [by right|]. intros [?|?]; [congruence|done].
Qed.

Lemma occurrences_app c l1 l2 :
  occurrences c (l1 ++ l2) = occurrences c l1 + occurrences c l2.
Proof. unfold occurrences. rewrite filter_app, length_app. lia. Qed.

Lemma occurrences_concat c words :
  occurrences c (concat words) = letter_occurrences c words.
Proof.
  induction words as [|w words IH]; simpl; [done|].
  by rewrite occurrences_app, IH.
Qed.

Lemma foldl_sum {A} (g : A → Z) (l : list A) (a : Z) :
  foldl (λ sum x, sum + g x) a l = a + foldr (λ x sum, sum + g x) 0 l.
Proof.
  revert a. induction l as [|x l IH]; intros a; simpl; [lia|].
  rewrite IH. lia.
Qed.

Lemma foldr_sum_perm {A} (g : A → Z) (l1 l2 : list A) :
  l1 ≡ₚ l2 →
  foldr (λ x sum, sum + g x) 0 l1 = foldr (λ x sum, sum + g x) 0 l2.
Proof.
  induction 1 as [|x l1 l2 _ IH|x y l|l1 l2 l3 _ IH1 _ IH2]; simpl;
    [done|by rewrite IH|lia|by etrans].
Qed.

Lemma letter_score_unique_sum letter_count word :
  letter_score letter_count word = unique_letter_sum letter_count word.
Proof.
  unfold letter_score, unique_letter_sum, set_fold. simpl.
  rewrite foldl_sum, Z.add_0_l. apply foldr_sum_perm.
  rewrite <-(elements_list_to_set (C:=gset ascii) (remove_dups word))
    by apply NoDup_remove_dups.
  f_equiv. intros c.
  by rewrite !elem_of_list_to_set, elem_of_remove_dups.
Qed.

Lemma reachable_table lines st :
  reachable lines st →
  NoDup (dict_keys (__scored_words st)) ∧
  ∀ w, w ∈ dict_keys (__scored_words st) ↔ w ∈ __working_list st.
Proof.
  intros Hreach. apply reachable_inv in Hreach as (Hsync & _ & _).
  apply rescored_fixed in Hsync as [_ ->]. split.
  - apply score_table_NoDup. constructor.
  - intros w. rewrite score_table_keys. simpl. rewrite elem_of_nil. tauto.
Qed.

Lemma recommendation_eq st item items :
  __scored_words st = item :: items →
  recommendation st = Ok (max_item item items).1 st.
Proof. intros Hsw. unfold recommendation, bind, get. by rewrite Hsw. Qed.

(** *** Exceptions *)

Lemma filter_loop_raise keep words temp_list st e st' :
  (∀ w st e st', keep w st = Raise e st' → e = IndexError) →
  filter_loop keep words temp_list st = Raise e st' → e = IndexError.
Proof.
  intros Hk. revert temp_list st.
  induction words as [|w words IH]; intros temp_list st; simpl; [done|].
  unfold bind. destruct (keep w st) as [b st1|e1 st1] eqn:Hkeep.
  - apply IH.
  - intros [= <- <-]. by eapply Hk.
Qed.

Lemma filter_pass_raise keep st e st' :
  (∀ w st e st', keep w st = Raise e st' → e = IndexError) →
  filter_pass keep st = Raise e st' → e = IndexError.
Proof.
  intros Hk. unfold filter_pass, bind, get, update_working_list, modify.
  destruct (filter_loop keep (__working_list st) [] st) as [l st1|e1 st1] eqn:Hl;
    [done|].
  intros [= <- <-]. by eapply filter_loop_raise.
Qed.

Lemma pass_of_raise k g i st e st' :
  pass_of k g i st = Raise e st' → e = IndexError.
Proof.
  unfold pass_of. repeat case_decide.
  - by rewrite gray_letter_ok.
  - apply (filter_pass_raise (λ word,
             let* c := str_index word i in
             if bool_decide (c ≠ g) then ret (bool_decide (g ∈ word)) else ret false)).
    intros w st0 e0 st0'. unfold bind, str_index.
    destruct (w !! i); simpl; [by case_bool_decide|by intros [= <- _]].
  - apply (filter_pass_raise (λ word,
             let* c := str_index word i in ret (bool_decide (c = g)))).
    intros w st0 e0 st0'. unfold bind, str_index.
    destruct (w !! i); simpl; [done|by intros [= <- _]].
Qed.

Lemma refine_step_raise guess key i st e st' :
  refine_step guess key i st = Raise e st' → e = IndexError.
Proof.
  rewrite refine_step_eq.
  destruct (key !! i); [destruct (guess !! i)|].
  - apply pass_of_raise.
  - by intros [= <- _].
  - by intros [= <- _].
Qed.

Lemma refine_loop_short guess key indices st i :
  i ∈ indices → key !! i = None →
  ∃ st', for_each indices (refine_step guess key) st = Raise IndexError st'.
Proof.
  intros Hi Hnone. revert st.
  induction indices as [|j indices IH]; intros st.
  - by apply elem_of_nil in Hi.
  - simpl. unfold bind.
    destruct (refine_step guess key j st) as [[] st1|e st1] eqn:Hstep.
    + apply elem_of_cons in Hi as [<-|Hi]; [|by apply IH].
      by rewrite refine_step_eq, Hnone in Hstep.
    + apply refine_step_raise in Hstep as ->. by eexists.
Qed.

Lemma for_each_ext {S A} (xs : list A) (f g : A → M S unit) st :
  (∀ x st, x ∈ xs → f x st = g x st) →
  for_each xs f st = for_each xs g st.
Proof.
  revert st. induction xs as [|x xs IH]; intros st Hfg; simpl; [done|].
  unfold bind. rewrite Hfg by left.
  destruct (g x st) as [[] st1|e st1]; [|done].
  apply IH. intros y st' Hy. apply Hfg. by right.
Qed.

(** *** States left by calls that raised *)

Lemma score_table_keys_foldl usage words d :
  dict_keys (score_table usage words d) =
  foldl (λ seen w, if decide (w ∈ seen) then seen else seen ++ [w])
        (dict_keys d) words.
Proof.
  revert d. induction words as [|w words IH]; intros d; [done|].
  rewrite score_table_cons, IH, dict_keys_set. done.
Qed.

Lemma score_table_first_occurrences usage words :
  dict_keys (score_table usage words []) = first_occurrences words.
Proof. apply score_table_keys_foldl. Qed.

Lemma first_occurrences_snoc words w :
  first_occurrences (words ++ [w]) =
  if decide (w ∈ first_occurrences words) then first_occurrences words
  else first_occurrences words ++ [w].
Proof. unfold first_occurrences. by rewrite foldl_snoc. Qed.

Lemma elem_of_first_occurrences words w :
  w ∈ first_occurrences words ↔ w ∈ words.
Proof.
  induction words as [|x words IH] using rev_ind; [done|].
  rewrite first_occurrences_snoc, elem_of_app, list_elem_of_singleton.
  case_decide as Hin.
  - rewrite IH. split; [tauto|]. intros [?| ->]; [done|]. by apply IH.
  - rewrite elem_of_app, list_elem_of_singleton, IH. done.
Qed.

(** The word at a place in the list of first occurrences stands in the
    list itself after the words before that place only. *)
Lemma first_occurrences_split words kpre b kpost :
  first_occurrences words = kpre ++ b :: kpost →
  ∃ pre post,
    words = pre ++ b :: post ∧ (b ∉ pre) ∧
    (∀ x, x ∈ pre → x ∈ kpre) ∧
    (∀ x, x ∈ post → x ∈ kpre ++ b :: kpost).
Proof.
  revert kpost.
  induction words as [|x words IH] using rev_ind; intros kpost Hkeys.
  - by destruct kpre.
  - rewrite first_occurrences_snoc in Hkeys. case_decide as Hin.
    + destruct (IH _ Hkeys) as (pre & post & -> & Hb & Hpre & Hpost).
      exists pre, (post ++ [x]). split_and!; [by rewrite <-app_assoc|done..|].
      intros y Hy. apply elem_of_app in Hy as [Hy|Hy]; [by apply Hpost|].
      apply list_elem_of_singleton in Hy as ->. by rewrite <-Hkeys.
    + destruct kpost as [|k kpost _] using rev_ind.
      * apply (app_inj_tail _ kpre x b) in Hkeys as [Hk ->].
        exists words, []. split_and!; [done| | |by intros ? ?%elem_of_nil].
        -- by rewrite <-elem_of_first_occurrences.
        -- intros y. by rewrite <-Hk, elem_of_first_occurrences.
      * rewrite app_comm_cons, app_assoc in Hkeys.
        apply app_inj_tail in Hkeys as [Hk ->].
        destruct (IH _ Hk) as (pre & post & -> & Hb & Hpre & Hpost).
        exists pre, (post ++ [k]).
        split_and!; [by rewrite <-app_assoc|done..|].
        intros y Hy. rewrite app_comm_cons, app_assoc, elem_of_app.
        apply elem_of_app in Hy as [Hy|Hy]; [left; by apply Hpost|by right].
Qed.

Lemma attainable_inv lines st :
  attainable lines st →
  __valid_words st = lines ∧
  __working_list st `sublist_of` lines ∧
  NoDup (dict_keys (__scored_words st)) ∧
  ∀ w, w ∈ __working_list st → w ∈ dict_keys (__scored_words st).
Proof.
  induction 1 as [|st c Hatt (Hvalid & Hsub & Hnodup & Hkeys)].
  - rewrite new_solver_eq. simpl. split_and!; [done|done| |].
    + apply score_table_NoDup. constructor.
    + intros w Hw. apply score_table_keys. by right.
  - destruct c as [word|key]; simpl; [done|].
    destruct (enter_result_result key st) as (l & Hl & [->|[e ->]]); simpl.
    + split_and!; [done|by etrans| |].
      * apply score_table_NoDup. constructor.
      * intros w Hw. apply score_table_keys. by right.
    + split_and!; [done|by etrans|done|].
      intros w Hw. apply Hkeys. by eapply elem_of_sublist.
Qed.

Lemma up_to_date_inv lines st :
  up_to_date lines st → attainable lines st ∧ rescored st = st.
Proof.
  induction 1 as [|st key st' Hatt Hr|st word st' Hup [Hatt Hsync] Hg].
  - split; [apply attain_new|]. by rewrite new_solver_eq.
  - split.
    + replace st' with (state_of (exec (EnterResult key) st));
        [by apply attain_call|].
      change (exec (EnterResult key) st) with (enter_result key st).
      by rewrite Hr.
    + destruct (enter_result_result key st) as (l & _ & [Hok|[e Hraise]]).
      * rewrite Hok in Hr. by injection Hr as <-.
      * by rewrite Hraise in Hr.
  - split.
    + replace st' with (state_of (exec (EnterGuess word) st));
        [by apply attain_call|].
      change (exec (EnterGuess word) st) with (enter_guess word st).
      by rewrite Hg.
    + injection Hg as <-. apply rescored_fixed.
      by apply rescored_fixed in Hsync.
Qed.

Lemma reachable_up_to_date lines st :
  reachable lines st → up_to_date lines st.
Proof.
  induction 1 as [|st c st' Hreach Hup Hexec]; [apply fresh_new|].
  destruct c as [word|key]; simpl in Hexec.
  - by eapply fresh_guess.
  - eapply fresh_result; [|done]. by apply up_to_date_inv.
Qed.

Lemma enter_result_tables key st :
  match enter_result key st with
  | Ok _ st' => rescored st' = st'
  | Raise _ st' =>
      __letter_count st' = __letter_count st ∧
      __scored_words st' = __scored_words st
  end.
Proof.
  destruct (enter_result_result key st) as (l & _ & [->|[e ->]]); [|done].
  by apply rescored_fixed.
Qed.

Lemma up_to_date_table lines st :
  up_to_date lines st →
  NoDup (dict_keys (__scored_words st)) ∧
  dict_keys (__scored_words st) = first_occurrences (__working_list st) ∧
  ∀ w, w ∈ dict_keys (__scored_words st) ↔ w ∈ __working_list st.
Proof.
  intros [_ Hsync]%up_to_date_inv.
  apply rescored_fixed in Hsync as [_ ->]. split_and!.
  - apply score_table_NoDup. constructor.
  - apply score_table_first_occurrences.
  - intros w. rewrite score_table_keys. simpl. rewrite elem_of_nil. tauto.
Qed.

(** ** The claims *)

(** C1, as the code has it. The letter table gives, for every letter, the
    number of its occurrences in the words of the working list, summed over
    the words (a letter that occurs twice in a word counts twice for that
    word): so it is in every state whose tables are up to date, that is at
    construction and after an [enter_result] that returned, and so it is
    after every [enter_result] that returns, from whatever state the solver
    was left in, also by a call that raised. An [enter_result] that raises
    recomputes nothing: it leaves the letter table as it was. *)
Theorem C1_letter_count_occurrences lines st c :
  attainable lines st →
  (up_to_date lines st →
   counter_get (__letter_count st) c =
   letter_occurrences c (__working_list st)) ∧
  ∀ result_key,
    match enter_result result_key st with
    | Ok _ st' =>
        counter_get (__letter_count st') c =
        letter_occurrences c (__working_list st')
    | Raise _ st' => __letter_count st' = __letter_count st
    end.
Proof.
  intros _. split.
  - intros [_ Hsync]%up_to_date_inv.
    apply rescored_fixed in Hsync as [-> _].
    by rewrite Counter_get, occurrences_concat.
  - intros key. pose proof (enter_result_tables key st) as Htables.
    destruct (enter_result key st) as [[] st'|e st']; [|by destruct Htables].
    apply rescored_fixed in Htables as [-> _].
    by rewrite Counter_get, occurrences_concat.
Qed.

(** C2. In every state reached from a vocabulary of five-letter words, with
    a current guess of five letters and a result key of five symbols among
    [-], [y] and [g], [enter_result] returns, and the working list it leaves
    is the previous one filtered by [consistent]: the words that, at every
    position, avoid the letter marked absent, have the letter marked correct
    at that position, and have the letter marked present elsewhere but not
    at that position.  Running the per-position passes in any other order
    leaves the very same state. *)
Theorem C2_feedback_filters_candidates lines st key :
  Forall (λ w : str, length w = 5%nat) lines →
  reachable lines st →
  length (__current_guess st) = 5%nat →
  length key = 5%nat →
  valid_key key →
  ∃ st',
    enter_result key st = Ok () st' ∧
    __working_list st' =
      filter (consistent (__current_guess st) key) (__working_list st) ∧
    ∀ indices, indices ≡ₚ seq 0 5 →
      refine_in_order indices (__current_guess st) key st = Ok () st'.
Proof.
  intros Hlines Hreach Hguess Hkey Hvalid.
  assert (well_formed key st) as Hwf.
  { split_and!; [by eapply reachable_words_length|done..]. }
  eexists. split_and!.
  - by apply enter_result_ok.
  - done.
  - intros indices Hperm. by apply refine_in_order_ok.
Qed.

(** C3, as the code has it. With five-letter words, guess and key, when
    [enter_result] leaves no candidate it still returns without raising;
    the working list and the score table it leaves are empty, and asking
    for the recommendation in that state raises [ValueError]. *)
Theorem C3_no_candidates_left lines st key :
  Forall (λ w : str, length w = 5%nat) lines →
  reachable lines st →
  length (__current_guess st) = 5%nat →
  length key = 5%nat →
  __working_list (state_of (enter_result key st)) = [] →
  ∃ st',
    enter_result key st = Ok () st' ∧
    __working_list st' = [] ∧
    __scored_words st' = [] ∧
    recommendation st' = Raise ValueError st'.
Proof.
  intros Hlines Hreach Hguess Hkey Hempty.
  assert (well_formed key st) as Hwf.
  { split_and!; [by eapply reachable_words_length|done..]. }
  rewrite enter_result_steps in Hempty |- * by done.
  remember (filter _ (__working_list st)) as l eqn:Hl. clear Hl.
  change (l = []) in Hempty. subst l.
  eexists. by split_and!.
Qed.

(** C4, as the code has it. A result key of fewer than five characters makes
    [enter_result] raise [IndexError], after the passes of the positions
    before the missing one may have filtered the working list, and without
    a new scoring; a result key of more than five characters raises nothing
    for its length: the characters after the fifth are never read, and the
    call does what it does with the first five. *)
Theorem C4_result_key_length st key :
  length key ≠ 5%nat →
  ((length key < 5)%nat →
   ∃ l, l `sublist_of` __working_list st ∧
        enter_result key st = Raise IndexError (set_working_list l st)) ∧
  ((5 < length key)%nat →
   enter_result key st = enter_result (take 5 key) st).
Proof.
  intros _. split.
  - intros Hshort.
    destruct (enter_result_result key st) as (l & Hl & Hr).
    exists l. split; [done|].
    destruct (refine_loop_short (__current_guess st) key (seq 0 5) st (length key))
      as [st' Hloop].
    { apply elem_of_seq. lia. }
    { by apply lookup_ge_None. }
    unfold enter_result, bind, get, __refine_working_list, refine_in_order, bind
      in Hr |- *.
    rewrite Hloop in Hr |- *. destruct Hr as [?|[e [= <- <-]]]; done.
  - intros Hlong.
    unfold enter_result, bind, get, __refine_working_list, refine_in_order, bind.
    rewrite (for_each_ext _ _ (refine_step (__current_guess st) (take 5 key))); [done|].
    intros i st' Hi%elem_of_seq. rewrite !refine_step_eq.
    rewrite lookup_take_lt by lia. done.
Qed.

(** C5. In every reachable state the score the table holds for a word of
    the working list is the float sum of the table's counts summed over the
    set of letters of the word, and of twice the word's commonality. *)
Theorem C5_score_formula lines st w :
  reachable lines st →
  w ∈ __working_list st →
  dict_get w (__scored_words st) =
  Some (float_add
          (float_of_int (unique_letter_sum (__letter_count st) w))
          (float_mul (zipf_frequency w) (float_of_int 2))).
Proof.
  intros Hreach Hw. apply reachable_inv in Hreach as (Hsync & _ & _).
  apply rescored_fixed in Hsync as [_ Hsw]. rewrite Hsw.
  rewrite score_table_get by done. unfold score_of.
  by rewrite letter_score_unique_sum.
Qed.

(** C6. Whatever the result key, and whether the call returns or raises,
    [enter_result] leaves a working list that is a sub-list of the one it
    started from, hence a subset of it and no longer; the working list of a
    reachable state is a sub-list of the vocabulary, which never changes. *)
Theorem C6_candidates_only_shrink lines st key :
  reachable lines st →
  let st' := state_of (enter_result key st) in
  __working_list st' `sublist_of` __working_list st ∧
  __working_list st' ⊆ __working_list st ∧
  (length (__working_list st') ≤ length (__working_list st))%nat ∧
  __valid_words st = lines ∧ __valid_words st' = lines ∧
  __working_list st ⊆ __valid_words st ∧
  __working_list st' ⊆ __valid_words st'.
Proof.
  intros Hreach st'.
  destruct (reachable_inv lines st Hreach) as (_ & Hvalid & Hsub).
  destruct (exec_result (EnterResult key) st) as (l & Hl & Hwl & Hvw).
  simpl in Hwl, Hvw. fold st' in Hwl, Hvw. rewrite Hwl, Hvw, Hvalid.
  split_and!; [done| |by apply sublist_length|done|done| |].
  - intros w Hw. by eapply elem_of_sublist.
  - intros w Hw. by eapply elem_of_sublist.
  - intros w Hw. eapply elem_of_sublist; [|done]. by eapply elem_of_sublist.
Qed.

(** C7. With five-letter words, guess and key, entering the same result a
    second time returns and changes nothing: the state after the second
    call is the state after the first. *)
Theorem C7_feedback_idempotent lines st key :
  Forall (λ w : str, length w = 5%nat) lines →
  reachable lines st →
  length (__current_guess st) = 5%nat →
  length key = 5%nat →
  ∃ st1,
    enter_result key st = Ok () st1 ∧
    enter_result key st1 = Ok () st1 ∧
    __working_list (state_of (enter_result key st1)) = __working_list st1.
Proof.
  intros Hlines Hreach Hguess Hkey.
  assert (well_formed key st) as Hwf.
  { split_and!; [by eapply reachable_words_length|done..]. }
  eexists. split; [by apply enter_result_steps|].
  set (P := λ w, Forall (step_keeps (__current_guess st) key w) (seq 0 5)).
  assert (enter_result key
            (rescored (set_working_list (filter P (__working_list st)) st)) =
          Ok () (rescored (set_working_list (filter P (__working_list st)) st)))
    as Hsecond.
  { rewrite enter_result_steps.
    - simpl. fold P. rewrite list_filter_filter.
      rewrite (list_filter_iff _ P); [done|]. intros w. tauto.
    - destruct Hwf as (Hwords & ? & ?). split_and!; [|done..]. simpl.
      rewrite Forall_forall in Hwords |- *. intros w Hw. apply Hwords.
      by apply list_elem_of_filter in Hw as [_ ?]. }
  by rewrite Hsecond.
Qed.

(** C8, as the code has it. In every state the solver can be in, also after
    calls that raised, every word of the working list has an entry in the
    score table. The table has an entry for a word exactly when the word is
    in the working list in every state whose tables are up to date (at
    construction and after an [enter_result] that returned), and after every
    [enter_result] that returns, from whatever state. An [enter_result] that
    raises leaves the score table as it was, over a working list that the
    passes before the exception may have shortened. *)
Theorem C8_score_table_domain lines st w :
  attainable lines st →
  (w ∈ __working_list st → is_Some (dict_get w (__scored_words st))) ∧
  (up_to_date lines st →
   is_Some (dict_get w (__scored_words st)) ↔ w ∈ __working_list st) ∧
  ∀ result_key,
    match enter_result result_key st with
    | Ok _ st' =>
        is_Some (dict_get w (__scored_words st')) ↔ w ∈ __working_list st'
    | Raise _ st' => __scored_words st' = __scored_words st
    end.
Proof.
  intros Hatt. split_and!.
  - intros Hw. apply dict_get_is_Some.
    by apply (attainable_inv lines st Hatt).
  - intros Hup. rewrite dict_get_is_Some.
    by apply (up_to_date_table lines st Hup).
  - intros key. pose proof (enter_result_tables key st) as Htables.
    destruct (enter_result key st) as [[] st'|e st']; [|by destruct Htables].
    apply rescored_fixed in Htables as [_ ->].
    rewrite dict_get_is_Some, score_table_keys. simpl. rewrite elem_of_nil.
    tauto.
Qed.

(** C9, as the code has it. In every state the solver can be in, also
    after calls that raised, with a non-empty working list, [recommendation]
    returns a word that has an entry in the score table, and no word of the
    working list has a score greater than the score of that word. The word
    is in the working list when the tables are up to date (at construction
    and after an [enter_result] that returned); after an [enter_result] that
    raised it can be a word that the working list has lost. *)
Theorem C9_recommendation_is_best_candidate lines st :
  StrictOrder float_lt →
  attainable lines st →
  __working_list st ≠ [] →
  ∃ w sw,
    recommendation st = Ok w st ∧
    (up_to_date lines st → w ∈ __working_list st) ∧
    dict_get w (__scored_words st) = Some sw ∧
    ∀ x sx, x ∈ __working_list st →
            dict_get x (__scored_words st) = Some sx → ¬ float_lt sw sx.
Proof.
  intros Hord Hatt Hne.
  destruct (attainable_inv lines st Hatt) as (_ & _ & Hnodup & Hkeys).
  assert (up_to_date lines st →
          ∀ w, w ∈ dict_keys (__scored_words st) → w ∈ __working_list st)
    as Hfresh.
  { intros Hup w. by apply (up_to_date_table lines st Hup). }
  destruct (__scored_words st) as [|item items] eqn:Hsw.
  { destruct (__working_list st) as [|w ws]; [done|].
    assert (w ∈ dict_keys (@nil (str * float))) as Hin by (apply Hkeys; left).
    by apply elem_of_nil in Hin. }
  destruct (max_item_strict item items Hord) as (Hin & _ & Hmax).
  exists (max_item item items).1, (max_item item items).2. split_and!.
  - by apply recommendation_eq.
  - intros Hup. apply (Hfresh Hup). apply list_elem_of_fmap. by eexists.
  - apply dict_get_elem_of; [done|]. by destruct (max_item item items).
  - intros x sx _ Hx. apply dict_get_elem_of in Hx; [|done].
    by apply (Hmax (x, sx)).
Qed.

(** C10, as the code has it. In every state the solver can be in, also
    after calls that raised, the working list is a sub-list of the
    vocabulary, in the vocabulary's order, and has no duplicate when the
    vocabulary has none; each of the three passes leaves a sub-list of the
    working list it starts from. When the tables are up to date (at
    construction and after an [enter_result] that returned) and the working
    list is not empty, [recommendation] returns the first word of it whose
    score no other word exceeds, whether the list has duplicates or not: the
    words before its first occurrence have a smaller score, no word after it
    has a greater one. *)
Theorem C10_recommendation_earliest_best lines st :
  StrictOrder float_lt →
  negatively_transitive →
  attainable lines st →
  __working_list st `sublist_of` lines ∧
  (NoDup lines → NoDup (__working_list st)) ∧
  (∀ letter location,
     __working_list (state_of (__gray_letter letter st))
       `sublist_of` __working_list st ∧
     __working_list (state_of (__green_letter letter location st))
       `sublist_of` __working_list st ∧
     __working_list (state_of (__yellow_letter letter location st))
       `sublist_of` __working_list st) ∧
  (up_to_date lines st →
   __working_list st ≠ [] →
   ∃ pre w post sw,
     recommendation st = Ok w st ∧
     __working_list st = pre ++ w :: post ∧
     (w ∉ pre) ∧
     dict_get w (__scored_words st) = Some sw ∧
     (∀ x, x ∈ pre →
        ∃ sx, dict_get x (__scored_words st) = Some sx ∧ float_lt sx sw) ∧
     (∀ x, x ∈ post →
        ∃ sx, dict_get x (__scored_words st) = Some sx ∧ ¬ float_lt sw sx)).
Proof.
  intros Hord Hneg Hatt.
  destruct (attainable_inv lines st Hatt) as (_ & Hsub & _ & _).
  split_and!; [done|intros Hlines; by eapply sublist_NoDup| |].
  { intros letter location. split_and!.
    - destruct (pass_of_result "-" letter location st) as (l & Hl & Hst).
      change (pass_of "-" letter location st) with (__gray_letter letter st) in Hst.
      by rewrite Hst.
    - destruct (pass_of_result "g" letter location st) as (l & Hl & Hst).
      change (pass_of "g" letter location st)
        with (__green_letter letter location st) in Hst.
      by rewrite Hst.
    - destruct (pass_of_result "y" letter location st) as (l & Hl & Hst).
      change (pass_of "y" letter location st)
        with (__yellow_letter letter location st) in Hst.
      by rewrite Hst. }
  intros Hup Hne.
  destruct (up_to_date_table lines st Hup) as (Hnd & Hkeys & _).
  destruct (__scored_words st) as [|item items] eqn:Hsw.
  { destruct (__working_list st) as [|w ws]; [done|].
    assert (w ∈ first_occurrences (w :: ws)) as Hin.
    { apply elem_of_first_occurrences. left. }
    rewrite <-Hkeys in Hin. by apply elem_of_nil in Hin. }
  destruct (max_item_earliest item items Hord Hneg)
    as (pre & post & Heq & Hpre & Hpost).
  remember (max_item item items) as best eqn:Hbest.
  assert (∀ it, it ∈ item :: items → dict_get it.1 (item :: items) = Some it.2)
    as Hget.
  { intros [x sx] Hin. by apply dict_get_elem_of. }
  assert (first_occurrences (__working_list st) = pre.*1 ++ best.1 :: post.*1)
    as Hfirst.
  { rewrite <-Hkeys, Heq. unfold dict_keys. by rewrite fmap_app. }
  destruct (first_occurrences_split _ _ _ _ Hfirst)
    as (wpre & wpost & Hwl & Hb & Hwpre & Hwpost).
  assert (∀ it, it ∈ pre → dict_get it.1 (item :: items) = Some it.2 ∧
                            float_lt it.2 best.2) as Hbefore.
  { intros it Hit. split; [|by apply Hpre].
    apply Hget. rewrite Heq. apply elem_of_app. by left. }
  exists wpre, best.1, wpost, best.2. split_and!.
  - rewrite Hbest. by apply recommendation_eq.
  - done.
  - done.
  - apply Hget. rewrite Heq. apply elem_of_app. right. left.
  - intros x (it & -> & Hit)%Hwpre%list_elem_of_fmap. exists it.2.
    by apply Hbefore.
  - intros x Hx%Hwpost. apply elem_of_app in Hx as [Hx|Hx].
    + apply list_elem_of_fmap in Hx as (it & -> & Hit). exists it.2.
      destruct (Hbefore it Hit) as [Hgetit Hlt]. split; [done|].
      intros Hgt. destruct Hord as [Hirr Htrans].
      by apply (Hirr it.2), (Htrans _ best.2).
    + apply elem_of_cons in Hx as [->|Hx].
      * exists best.2. split.
        -- apply Hget. rewrite Heq. apply elem_of_app. right. left.
        -- destruct Hord as [Hirr _]. apply Hirr.
      * apply list_elem_of_fmap in Hx as (it & -> & Hit). exists it.2. split.
        -- apply Hget. rewrite Heq. apply elem_of_app. right. by right.
        -- by apply Hpost.
Qed.

(** ** Further properties of the solver *)

(** *** Rounds of the game *)

Lemma new_solver_lists lines :
  __valid_words (new_solver lines) = lines ∧
  __working_list (new_solver lines) = lines ∧
  __guess_number (new_solver lines) = 0.
Proof. by rewrite new_solver_eq. Qed.

Lemma play_round_ok round st :
  Forall (λ w : str, length w = 5%nat) (__working_list st) →
  valid_round round →
  play_round round st =
  Ok () (rescored
           (set_working_list
              (filter (consistent round.1 round.2) (__working_list st))
              (set_guess_number (__guess_number st + 1)
                                (set_current_guess round.1 st)))).
Proof.
  intros Hwords (Hguess & Hkey & Hvalid). unfold play_round, bind. simpl.
  by rewrite enter_result_ok.
Qed.

Lemma play_rounds_ok rounds st :
  Forall (λ w : str, length w = 5%nat) (__working_list st) →
  Forall valid_round rounds →
  ∃ st',
    play_rounds rounds st = Ok () st' ∧
    __working_list st' =
      filter (λ w, Forall (λ round, consistent round.1 round.2 w) rounds)
             (__working_list st) ∧
    __guess_number st' = __guess_number st + Z.of_nat (length rounds).
Proof.
  intros Hwords Hrounds. revert st Hwords.
  induction Hrounds as [|round rounds Hround Hrounds IH]; intros st Hwords.
  - exists st. split_and!; [done| |simpl; lia].
    rewrite filter_all; [done|]. apply Forall_forall. intros w _. constructor.
  - unfold play_rounds. simpl. unfold bind. rewrite play_round_ok by done.
    destruct (IH (rescored
                    (set_working_list
                       (filter (consistent round.1 round.2) (__working_list st))
                       (set_guess_number (__guess_number st + 1)
                                         (set_current_guess round.1 st)))))
      as (st' & Hrun & Hwl & Hgn).
    { simpl. rewrite Forall_forall in Hwords |- *. intros w Hw. apply Hwords.
      by apply list_elem_of_filter in Hw as [_ ?]. }
    exists st'. split_and!.
    + done.
    + rewrite Hwl. simpl. rewrite list_filter_filter.
      apply list_filter_iff. intros w. rewrite Forall_cons. tauto.
    + rewrite Hgn. simpl. lia.
Qed.

(** X1. After any number of rounds with five-letter guesses and keys, played
    on a new solver over five-letter words, the candidates are exactly the
    words of the vocabulary, in its order, that are consistent with the
    feedback of every round; the solver reports their number, and as many
    guesses as rounds. *)
Theorem X1_candidates_after_rounds lines rounds :
  Forall (λ w : str, length w = 5%nat) lines →
  Forall valid_round rounds →
  ∃ st,
    play_rounds rounds (new_solver lines) = Ok () st ∧
    __working_list st =
      filter (λ w, Forall (λ round, consistent round.1 round.2 w) rounds) lines ∧
    remaining_possible_words st =
      Ok (Z.of_nat
            (length (filter (λ w, Forall (λ round, consistent round.1 round.2 w)
                                         rounds) lines))) st ∧
    guess_number st = Ok (Z.of_nat (length rounds)) st.
Proof.
  intros Hlines Hrounds.
  destruct (new_solver_lists lines) as (_ & Hwl0 & Hgn0).
  destruct (play_rounds_ok rounds (new_solver lines)) as (st & Hrun & Hwl & Hgn).
  { by rewrite Hwl0. }
  { done. }
  rewrite Hwl0 in Hwl. rewrite Hgn0 in Hgn.
  exists st. split_and!; [done|done| |].
  - unfold remaining_possible_words, bind, get, ret. by rewrite Hwl.
  - unfold guess_number, bind, get, ret. rewrite Hgn. f_equal.
Qed.

Lemma exec_guess_number c st st' :
  exec c st = Ok () st' →
  __guess_number st' = __guess_number st + guesses_in [c].
Proof.
  destruct c as [word|key]; simpl.
  - intros [= <-]. simpl. lia.
  - intros Hr. destruct (enter_result_result key st) as (l & _ & [Hok|[e Hraise]]).
    + rewrite Hok in Hr. injection Hr as <-. simpl. lia.
    + by rewrite Hraise in Hr.
Qed.

Lemma guesses_in_cons c calls :
  guesses_in (c :: calls) = guesses_in [c] + guesses_in calls.
Proof. destruct c; simpl; lia. Qed.

Lemma run_calls_guess_number calls st st' :
  run_calls calls st = Ok () st' →
  __guess_number st' = __guess_number st + guesses_in calls.
Proof.
  revert st. induction calls as [|c calls IH]; intros st.
  - intros [= <-]. simpl. lia.
  - rewrite guesses_in_cons. unfold run_calls. cbn [for_each]. unfold bind.
    destruct (exec c st) as [[] st1|e st1] eqn:Hexec; [|done].
    intros Hrun. apply IH in Hrun. apply exec_guess_number in Hexec. lia.
Qed.

(** X2. Whatever calls are made on a new solver, if they all return, the
    guess number the solver reports is the number of guesses entered: the
    results entered in between do not count. *)
Theorem X2_guess_number_counts_guesses lines calls st :
  run_calls calls (new_solver lines) = Ok () st →
  guess_number st = Ok (guesses_in calls) st.
Proof.
  intros Hrun. apply run_calls_guess_number in Hrun.
  destruct (new_solver_lists lines) as (_ & _ & Hgn0).
  unfold guess_number, bind, get, ret. f_equal. lia.
Qed.

(** *** Particular results *)

Lemma filter_ext_in {A} (P Q : A → Prop) `{∀ x, Decision (P x)}
    `{∀ x, Decision (Q x)} (l : list A) :
  (∀ x, x ∈ l → P x ↔ Q x) → filter P l = filter Q l.
Proof.
  induction l as [|x l IH]; intros HPQ; [done|].
  rewrite !filter_cons, IH by (intros y Hy; apply HPQ; by right).
  destruct (decide (P x)) as [HP|HP], (decide (Q x)) as [HQ|HQ]; try done.
  - destruct HQ. apply HPQ; [left|done].
  - destruct HP. apply HPQ; [left|done].
Qed.

Lemma filter_none {A} (P : A → Prop) `{∀ x, Decision (P x)} (l : list A) :
  (∀ x, x ∈ l → ¬ P x) → filter P l = [].
Proof.
  induction l as [|x l IH]; intros HP; [done|].
  rewrite filter_cons_False by (apply HP; left).
  apply IH. intros y Hy. apply HP. by right.
Qed.

Lemma filter_eq_NoDup {A} `{EqDecision A} (x : A) (l : list A) :
  NoDup l → x ∈ l → filter (λ y, y = x) l = [x].
Proof.
  induction 1 as [|y l Hy Hl IH]; intros Hx.
  - by apply elem_of_nil in Hx.
  - rewrite filter_cons. destruct (decide (y = x)) as [->|Hne].
    + f_equal. apply filter_none. intros z Hz ->. done.
    + apply IH. apply elem_of_cons in Hx as [?|?]; [congruence|done].
Qed.

Lemma consistent_position guess key w i :
  consistent guess key w → (i < 5)%nat → position_ok guess key w i.
Proof.
  unfold consistent. rewrite Forall_forall. intros Hc Hi. apply Hc.
  apply elem_of_seq. lia.
Qed.

Lemma consistent_all_green guess w :
  length guess = 5%nat → length w = 5%nat →
  consistent guess (s "ggggg") w ↔ w = guess.
Proof.
  intros Hguess Hw. split.
  - intros Hc. apply list_eq. intros i.
    destruct (decide (i < 5)%nat) as [Hi|Hi].
    + pose proof (consistent_position _ _ _ i Hc Hi) as Hpos.
      unfold position_ok in Hpos.
      destruct (lookup_lt_is_Some_2 guess i) as [letter Hletter]; [lia|].
      rewrite Hletter in Hpos |- *.
      do 5 (destruct i as [|i]; [by apply Hpos|]). lia.
    + rewrite !lookup_ge_None_2; [done|lia..].
  - intros ->. unfold consistent. apply Forall_forall.
    intros i Hi%elem_of_seq. unfold position_ok.
    destruct (lookup_lt_is_Some_2 guess i) as [letter Hletter]; [lia|].
    rewrite Hletter.
    do 5 (destruct i as [|i]; [by split_and!|]). lia.
Qed.

(** X3. When the current guess is one of the candidates and the result
    entered is [ggggg], the guess is left as the only candidate and becomes
    the recommendation (vocabulary of distinct five-letter words). *)
Theorem X3_all_green_leaves_the_guess lines st :
  Forall (λ w : str, length w = 5%nat) lines →
  NoDup lines →
  reachable lines st →
  __current_guess st ∈ __working_list st →
  ∃ st',
    enter_result (s "ggggg") st = Ok () st' ∧
    __working_list st' = [__current_guess st] ∧
    recommendation st' = Ok (__current_guess st) st'.
Proof.
  intros Hlines Hnodup Hreach Hin.
  pose proof (reachable_words_length lines st Hlines Hreach) as Hwords.
  destruct (reachable_inv lines st Hreach) as (_ & _ & Hsub).
  assert (length (__current_guess st) = 5%nat) as Hguess.
  { rewrite Forall_forall in Hwords. by apply Hwords. }
  assert (filter (consistent (__current_guess st) (s "ggggg")) (__working_list st)
          = [__current_guess st]) as Hfilter.
  { rewrite <-(filter_eq_NoDup (__current_guess st) (__working_list st));
      [|by eapply sublist_NoDup|done].
    apply filter_ext_in. intros w Hw. apply consistent_all_green; [done|].
    rewrite Forall_forall in Hwords. by apply Hwords. }
  eexists. split_and!.
  - apply enter_result_ok; [done|]. repeat constructor.
  - done.
  - by rewrite Hfilter.
Qed.

(** X4. A letter that the guess has twice, marked [-] at one position and
    [g] or [y] at the other, leaves no candidate at all: the gray pass
    removes every word with the letter, the other pass every word without
    it. *)
Theorem X4_gray_and_coloured_letter_leaves_nothing lines st key i j c :
  Forall (λ w : str, length w = 5%nat) lines →
  reachable lines st →
  length (__current_guess st) = 5%nat →
  length key = 5%nat →
  __current_guess st !! i = Some c →
  __current_guess st !! j = Some c →
  key !! i = Some "-" →
  key !! j = Some "g" ∨ key !! j = Some "y" →
  ∃ st', enter_result key st = Ok () st' ∧ __working_list st' = [].
Proof.
  intros Hlines Hreach Hguess Hkey Hgi Hgj Hki Hkj.
  assert (well_formed key st) as Hwf.
  { split_and!; [by eapply reachable_words_length|done..]. }
  assert (i ∈ seq 0 5) as Hi.
  { apply lookup_lt_Some in Hki. apply elem_of_seq. lia. }
  assert (j ∈ seq 0 5) as Hj.
  { apply lookup_lt_Some in Hgj. apply elem_of_seq. lia. }
  eexists. split; [by apply enter_result_steps|]. simpl.
  apply filter_none. intros w _ Hsteps. rewrite Forall_forall in Hsteps.
  pose proof (Hsteps i Hi) as Hsi. pose proof (Hsteps j Hj) as Hsj.
  unfold step_keeps in Hsi, Hsj. rewrite Hki, Hgi in Hsi. rewrite Hgj in Hsj.
  apply Hsi.
  destruct Hkj as [Hkj|Hkj]; rewrite Hkj in Hsj;
    unfold pass_keeps in Hsj; simpl in Hsj.
  - by eapply list_elem_of_lookup_2.
  - apply Hsj.
Qed.

Lemma docstring_key_lookup puzzle_word guess i :
  (i < 5)%nat →
  docstring_key puzzle_word guess !! i = Some (docstring_mark puzzle_word guess i).
Proof.
  intros Hi. unfold docstring_key.
  rewrite list_lookup_fmap, lookup_seq_lt by done. done.
Qed.

Lemma docstring_mark_symbol puzzle_word guess i :
  docstring_mark puzzle_word guess i
    ∈ [ABSENT; PRESENT_WRONG_POSITION; CORRECT_POSITION].
Proof.
  unfold docstring_mark, ABSENT, PRESENT_WRONG_POSITION, CORRECT_POSITION.
  destruct (guess !! i); repeat case_decide; set_solver.
Qed.

Lemma docstring_key_valid puzzle_word guess :
  length guess = 5%nat → valid_round (guess, docstring_key puzzle_word guess).
Proof.
  intros Hguess. split_and!; [done|by vm_compute|].
  unfold valid_key, docstring_key. cbn [snd]. apply Forall_fmap, Forall_forall.
  intros i _. apply docstring_mark_symbol.
Qed.

Lemma docstring_key_consistent puzzle_word guess :
  consistent guess (docstring_key puzzle_word guess) puzzle_word.
Proof.
  unfold consistent. apply Forall_forall. intros i Hi%elem_of_seq.
  unfold position_ok. rewrite docstring_key_lookup by lia.
  destruct (guess !! i) as [letter|] eqn:Hletter; [|done].
  unfold docstring_mark. rewrite Hletter.
  unfold symbol_ok, ABSENT, PRESENT_WRONG_POSITION, CORRECT_POSITION.
  repeat case_decide; split_and!; intros Heq; try discriminate Heq; done.
Qed.

(** X5. When the puzzle word is in the vocabulary and every result is the
    key the docstring of the class describes for the puzzle word and the
    guess (green in the correct spot, yellow in the word but elsewhere, gray
    not in the word), the puzzle word is still a candidate after any number
    of rounds. *)
Theorem X5_docstring_keys_keep_the_puzzle_word lines puzzle_word guesses :
  Forall (λ w : str, length w = 5%nat) lines →
  puzzle_word ∈ lines →
  Forall (λ guess : str, length guess = 5%nat) guesses →
  ∃ st,
    play_rounds ((λ guess, (guess, docstring_key puzzle_word guess)) <$> guesses)
                (new_solver lines) = Ok () st ∧
    puzzle_word ∈ __working_list st.
Proof.
  intros Hlines Hin Hguesses.
  destruct (new_solver_lists lines) as (_ & Hwl0 & _).
  destruct (play_rounds_ok
              ((λ guess, (guess, docstring_key puzzle_word guess)) <$> guesses)
              (new_solver lines)) as (st & Hrun & Hwl & _).
  { by rewrite Hwl0. }
  { apply Forall_fmap. eapply Forall_impl; [done|].
    intros guess Hguess. by apply docstring_key_valid. }
  exists st. split; [done|]. rewrite Hwl, Hwl0.
  apply list_elem_of_filter. split; [|done].
  apply Forall_fmap, Forall_forall. intros guess _.
  apply docstring_key_consistent.
Qed.

(** *** The top recommendations *)

Lemma insert_descending_perm item items :
  insert_descending item items ≡ₚ item :: items.
Proof.
  induction items as [|item' items IH]; simpl; [done|].
  destruct (float_gt item'.2 item.2); [|done].
  rewrite IH. apply Permutation_swap.
Qed.

Lemma sorted_descending_perm items : sorted_descending items ≡ₚ items.
Proof.
  induction items as [|item items IH]; simpl; [done|].
  by rewrite insert_descending_perm, IH.
Qed.

Lemma insert_descending_sorted item items :
  StrictOrder float_lt → negatively_transitive →
  descending items → descending (insert_descending item items).
Proof.
  intros Hord Hneg. unfold descending.
  induction 1 as [|item' items Hitems IH Hall]; simpl.
  - repeat constructor.
  - destruct (float_gt item'.2 item.2) eqn:Hgt.
    + constructor; [done|].
      rewrite insert_descending_perm. constructor; [|done].
      intros Hlt. apply (irreflexivity float_lt item.2). by trans item'.2.
    + constructor; [by constructor|]. constructor.
      * unfold float_lt. congruence.
      * eapply Forall_impl; [done|]. intros y Hy. simpl in Hy.
        apply (Hneg _ item'.2); [|done]. unfold float_lt. congruence.
Qed.

Lemma sorted_descending_sorted items :
  StrictOrder float_lt → negatively_transitive →
  descending (sorted_descending items).
Proof.
  intros Hord Hneg. induction items as [|item items IH]; simpl.
  - constructor.
  - by apply insert_descending_sorted.
Qed.

Lemma dict_set_fresh {V} k (v : V) d :
  k ∉ dict_keys d → dict_set k v d = d ++ [(k, v)].
Proof.
  unfold dict_keys. induction d as [|[k' v'] d IH]; csimpl; [done|].
  intros [Hne Hnin]%not_elem_of_cons.
  rewrite decide_False by done. by rewrite IH.
Qed.

Lemma dict_fold_fresh (pairs d : list (str * float)) :
  NoDup (dict_keys d ++ pairs.*1) →
  foldl (λ d item, dict_set item.1 item.2 d) d pairs = d ++ pairs.
Proof.
  revert d. induction pairs as [|[k v] pairs IH]; intros d Hnodup; csimpl.
  - by rewrite app_nil_r.
  - csimpl in Hnodup.
    assert (k ∉ dict_keys d) as Hfresh.
    { apply NoDup_app in Hnodup as (_ & Hdisj & _).
      intros Hin. apply (Hdisj k Hin). left. }
    rewrite dict_set_fresh by done. rewrite IH.
    + by rewrite <-app_assoc.
    + unfold dict_keys in *. rewrite fmap_app, <-app_assoc. done.
Qed.

Lemma dict_of_NoDup pairs : NoDup pairs.*1 → dict_of pairs = pairs.
Proof. intros Hnodup. unfold dict_of. by rewrite dict_fold_fresh. Qed.

Lemma slice_to_sublist {A} n (l : list A) : slice_to n l `sublist_of` l.
Proof. unfold slice_to. case_decide; apply sublist_take. Qed.

Lemma sorted_descending_keys_NoDup items :
  NoDup items.*1 → NoDup (sorted_descending items).*1.
Proof. intros Hnodup. by rewrite sorted_descending_perm. Qed.

Lemma get_recommendation_eq lines st rec_count :
  reachable lines st →
  __get_recommendation rec_count st =
  Ok (slice_to rec_count (sorted_descending (__scored_words st))) st.
Proof.
  intros Hreach. destruct (reachable_table lines st Hreach) as [Hnodup _].
  unfold __get_recommendation, bind, get, ret. f_equal.
  apply dict_of_NoDup.
  eapply sublist_NoDup; [by apply sorted_descending_keys_NoDup|].
  apply fmap_sublist, slice_to_sublist.
Qed.

Lemma slice_to_take {A} n (l : list A) : ∃ m, slice_to n l = take m l.
Proof. unfold slice_to. case_decide; by eexists. Qed.

Lemma table_keys_length lines st :
  reachable lines st →
  length (__scored_words st) = length (remove_dups (__working_list st)).
Proof.
  intros Hreach. destruct (reachable_table lines st Hreach) as [Hnodup Hkeys].
  rewrite <-(length_fmap fst (__scored_words st)).
  apply Permutation_length, NoDup_Permutation; [done|apply NoDup_remove_dups|].
  intros w. by rewrite elem_of_remove_dups.
Qed.

Lemma table_entry lines st w score :
  reachable lines st →
  (w, score) ∈ __scored_words st →
  w ∈ __working_list st ∧ dict_get w (__scored_words st) = Some score.
Proof.
  intros Hreach Hin. destruct (reachable_table lines st Hreach) as [Hnodup Hkeys].
  split; [|by apply dict_get_elem_of].
  apply Hkeys, list_elem_of_fmap. by exists (w, score).
Qed.

(** X7. For a count that is not negative, the top recommendations are as
    many entries as asked for, or all the distinct candidates when there are
    fewer; their words are distinct candidates, each with the score the
    table holds for it. *)
Theorem X7_top_recommendations_are_scored_candidates lines st rec_count :
  reachable lines st →
  0 ≤ rec_count →
  ∃ top,
    __get_recommendation rec_count st = Ok top st ∧
    length top =
      (Z.to_nat rec_count `min` length (remove_dups (__working_list st)))%nat ∧
    NoDup (dict_keys top) ∧
    ∀ w score, (w, score) ∈ top →
      w ∈ __working_list st ∧ dict_get w (__scored_words st) = Some score.
Proof.
  intros Hreach Hcount.
  destruct (reachable_table lines st Hreach) as [Hnodup Hkeys].
  eexists. split_and!; [by eapply get_recommendation_eq|..].
  - unfold slice_to. rewrite decide_True by done.
    rewrite length_take, sorted_descending_perm.
    by erewrite table_keys_length.
  - eapply sublist_NoDup; [by apply sorted_descending_keys_NoDup|].
    apply fmap_sublist, slice_to_sublist.
  - intros w score Hin. eapply table_entry; [done|].
    rewrite <-(sorted_descending_perm (__scored_words st)).
    eapply elem_of_sublist; [done|apply slice_to_sublist].
Qed.

(** X8. Whatever the count, the top recommendations come in descending
    order of score, and no candidate left out of them has a greater score
    than one that is listed (scores compared as non-NaN floats). *)
Theorem X8_top_recommendations_are_the_best lines st rec_count :
  StrictOrder float_lt →
  negatively_transitive →
  reachable lines st →
  ∃ top,
    __get_recommendation rec_count st = Ok top st ∧
    descending top ∧
    ∀ w score x score_x,
      (w, score) ∈ top →
      dict_get x (__scored_words st) = Some score_x →
      x ∉ dict_keys top →
      ¬ float_lt score score_x.
Proof.
  intros Hord Hneg Hreach.
  destruct (reachable_table lines st Hreach) as [Hnodup Hkeys].
  pose proof (sorted_descending_sorted (__scored_words st) Hord Hneg) as Hsorted.
  eexists. split; [by eapply get_recommendation_eq|].
  destruct (slice_to_take rec_count (sorted_descending (__scored_words st)))
    as [m ->].
  unfold descending in *.
  rewrite <-(take_drop m (sorted_descending (__scored_words st))) in Hsorted.
  split; [by eapply StronglySorted_app_1_l|].
  intros w score x score_x Hin Hx Hnotin.
  apply dict_get_elem_of in Hx; [|done].
  rewrite <-(sorted_descending_perm (__scored_words st)) in Hx.
  rewrite <-(take_drop m (sorted_descending (__scored_words st))) in Hx.
  apply elem_of_app in Hx as [Hx|Hx].
  - destruct Hnotin. apply list_elem_of_fmap. by exists (x, score_x).
  - by apply (StronglySorted_app_1_elem_of _ _ _ (w, score) (x, score_x) Hsorted).
Qed.

Lemma max_item_first_best first items :
  StrictOrder float_lt → negatively_transitive →
  first_best (max_item first items) (first :: items).
Proof. intros Hord Hneg. by apply max_item_earliest. Qed.

Lemma first_best_unique best1 best2 items :
  first_best best1 items → first_best best2 items → best1 = best2.
Proof.
  intros (pre1 & post1 & Heq1 & Hpre1 & Hpost1)
         (pre2 & post2 & Heq2 & Hpre2 & Hpost2).
  destruct (decide (length pre1 = length pre2)) as [Hlen|Hlen].
  - rewrite Heq1 in Heq2. apply app_inj_1 in Heq2 as [_ Heq2]; [|done].
    by injection Heq2.
  - assert (items !! length pre1 = Some best1) as H1.
    { rewrite Heq1. by apply list_lookup_middle. }
    assert (items !! length pre2 = Some best2) as H2.
    { rewrite Heq2. by apply list_lookup_middle. }
    destruct (decide (length pre1 < length pre2)%nat) as [Hlt|Hge].
    + (* best1 lies before best2, and best2 after best1 *)
      assert (best1 ∈ pre2) as Hin1.
      { rewrite Heq2, lookup_app_l in H1 by done. by eapply list_elem_of_lookup_2. }
      assert (best2 ∈ post1) as Hin2.
      { rewrite Heq1 in H2.
        rewrite lookup_app_r, lookup_cons_ne_0 in H2 by lia.
        by eapply list_elem_of_lookup_2. }
      destruct (Hpost1 best2 Hin2). by apply Hpre2.
    + assert (best2 ∈ pre1) as Hin2.
      { rewrite Heq1, lookup_app_l in H2 by lia. by eapply list_elem_of_lookup_2. }
      assert (best1 ∈ post2) as Hin1.
      { rewrite Heq2 in H1.
        rewrite lookup_app_r, lookup_cons_ne_0 in H1 by lia.
        by eapply list_elem_of_lookup_2. }
      destruct (Hpost2 best1 Hin1). by apply Hpre1.
Qed.

Lemma sorted_descending_head item items :
  StrictOrder float_lt → negatively_transitive →
  ∃ best rest,
    sorted_descending (item :: items) = best :: rest ∧
    first_best best (item :: items).
Proof.
  intros Hord Hneg. revert item.
  induction items as [|item' items IH]; intros item.
  - exists item, []. split; [done|].
    exists [], []. split_and!; [done|by intros ? ?%elem_of_nil..].
  - destruct (IH item') as (best & rest & Hsorted & pre & post & Heq & Hpre & Hpost).
    change (sorted_descending (item :: item' :: items))
      with (insert_descending item (sorted_descending (item' :: items))).
    rewrite Hsorted. simpl.
    destruct (float_gt best.2 item.2) eqn:Hgt.
    + exists best, (insert_descending item rest). split; [done|].
      exists (item :: pre), post. rewrite Heq. split_and!; [done| |done].
      intros x [->|Hx]%elem_of_cons; [done|by apply Hpre].
    + exists item, (best :: rest). split; [done|].
      exists [], (item' :: items). split_and!; [done|by intros ? ?%elem_of_nil|].
      intros x Hx. rewrite Heq in Hx.
      apply elem_of_app in Hx as [Hx|[->|Hx]%elem_of_cons].
      * intros Hlt. assert (float_lt item.2 best.2) as Hc.
        { trans x.2; [done|by apply Hpre]. }
        unfold float_lt in Hc. congruence.
      * unfold float_lt. congruence.
      * apply (Hneg _ best.2); [|by apply Hpost]. unfold float_lt. congruence.
Qed.

(** X9. When at least one recommendation is asked for and there is a
    candidate, the first of the top recommendations is the word that
    [recommendation] returns (scores compared as non-NaN floats). *)
Theorem X9_first_top_recommendation_is_the_recommendation lines st rec_count :
  StrictOrder float_lt →
  negatively_transitive →
  reachable lines st →
  1 ≤ rec_count →
  __working_list st ≠ [] →
  ∃ w score rest,
    __get_recommendation rec_count st = Ok ((w, score) :: rest) st ∧
    recommendation st = Ok w st.
Proof.
  intros Hord Hneg Hreach Hcount Hne.
  destruct (reachable_table lines st Hreach) as [Hnodup Hkeys].
  erewrite get_recommendation_eq by done.
  destruct (__scored_words st) as [|item items] eqn:Hsw.
  { destruct (__working_list st) as [|w ws]; [done|].
    assert (w ∈ dict_keys (@nil (str * float))) as Hin by (apply Hkeys; left).
    by apply elem_of_nil in Hin. }
  destruct (sorted_descending_head item items Hord Hneg)
    as (best & rest & Hsorted & Hbest).
  assert (best = max_item item items) as ->.
  { eapply first_best_unique; [done|]. by apply max_item_first_best. }
  rewrite Hsorted. unfold slice_to. rewrite decide_True by lia.
  replace (Z.to_nat rec_count) with (S (Z.to_nat (rec_count - 1))) by lia.
  destruct (max_item item items) as [w score] eqn:Hmax.
  exists w, score, (take (Z.to_nat (rec_count - 1)) rest). split; [done|].
  unfold recommendation, bind, get. rewrite Hsw, Hmax. done.
Qed.

(** X10. A negative count is no error and does not give an empty answer: it
    is taken as a slice bound from the end, so that the answer is the whole
    table in descending order without its last entries, as many as the
    count says. *)
Theorem X10_negative_count_drops_the_last lines st rec_count :
  reachable lines st →
  rec_count < 0 →
  ∃ all,
    __get_recommendation (Z.of_nat (length (__scored_words st))) st = Ok all st ∧
    all ≡ₚ __scored_words st ∧
    __get_recommendation rec_count st =
      Ok (take (length all - Z.to_nat (- rec_count)) all) st.
Proof.
  intros Hreach Hcount.
  exists (sorted_descending (__scored_words st)). split_and!.
  - erewrite get_recommendation_eq by done. unfold slice_to.
    rewrite decide_True by lia. rewrite Nat2Z.id, take_ge; [done|].
    by rewrite sorted_descending_perm.
  - apply sorted_descending_perm.
  - erewrite get_recommendation_eq by done. unfold slice_to.
    by rewrite decide_False by lia.
Qed.

(** *** The program *)

Lemma max_item_in first items : max_item first items ∈ first :: items.
Proof.
  revert first. induction items as [|item items IH]; intros first.
  - left.
  - rewrite max_item_cons.
    specialize (IH (if float_gt item.2 first.2 then item else first)).
    apply elem_of_cons in IH as [->|IH]; [|right; by right].
    destruct (float_gt item.2 first.2); [right|]; left.
Qed.

Lemma recommendation_result lines st :
  reachable lines st →
  (__working_list st = [] ∧ recommendation st = Raise ValueError st) ∨
  (∃ w, w ∈ __working_list st ∧ recommendation st = Ok w st).
Proof.
  intros Hreach. destruct (reachable_table lines st Hreach) as [_ Hkeys].
  unfold recommendation, bind, get.
  destruct (__scored_words st) as [|item items].
  - left. split; [|done]. destruct (__working_list st) as [|w ws]; [done|].
    assert (w ∈ dict_keys (@nil (str * float))) as Hin by (apply Hkeys; left).
    by apply elem_of_nil in Hin.
  - right. eexists. split; [|done]. apply Hkeys.
    apply list_elem_of_fmap. eexists. split; [done|]. apply max_item_in.
Qed.

Lemma refine_loop_raise guess key indices st e st' :
  for_each indices (refine_step guess key) st = Raise e st' → e = IndexError.
Proof.
  revert st. induction indices as [|i indices IH]; intros st; simpl; [done|].
  unfold bind. destruct (refine_step guess key i st) as [[] st1|e1 st1] eqn:Hstep.
  - apply IH.
  - intros [= <- <-]. by eapply refine_step_raise.
Qed.

Lemma enter_result_raise key st e st' :
  enter_result key st = Raise e st' →
  e = IndexError ∧ __guess_number st' = __guess_number st.
Proof.
  intros Hr. split.
  - unfold enter_result, bind, get, __refine_working_list, refine_in_order, bind
      in Hr.
    destruct (for_each (seq 0 5) (refine_step (__current_guess st) key) st)
      as [[] st1|e1 st1] eqn:Hloop.
    + by rewrite score_words_ok in Hr.
    + injection Hr as <- <-. by eapply refine_loop_raise.
  - destruct (enter_result_result key st) as (l & _ & [Hok|[e' Hraise]]).
    + by rewrite Hok in Hr.
    + rewrite Hraise in Hr. by injection Hr as <- <-.
Qed.

Lemma enter_result_guess_number key st st' :
  enter_result key st = Ok () st' → __guess_number st' = __guess_number st.
Proof.
  intros Hr. destruct (enter_result_result key st) as (l & _ & [Hok|[e' Hraise]]).
  - rewrite Hok in Hr. by injection Hr as <-.
  - by rewrite Hraise in Hr.
Qed.

Lemma guesses_asked_app out out' :
  guesses_asked (out ++ out') = (guesses_asked out + guesses_asked out')%nat.
Proof.
  induction out as [|o out IH]; simpl; [done|]. destruct o; simpl; lia.
Qed.

Lemma run_ok_weaken lines asked asked' stdin stdin' r :
  (asked ≤ asked')%nat →
  (well_formed_input stdin' → well_formed_input stdin) →
  run_ok lines asked stdin r → run_ok lines asked' stdin' r.
Proof.
  intros Hasked Hwf (Hgn & Hout & Hexit & Hexn).
  split_and!; [done|lia|done|].
  intros e He. destruct (Hexn e He) as [?|[-> Hnot]]; [by left|right].
  split; [done|]. intros [? ?]. apply Hnot. split; [done|by apply Hwf].
Qed.

Lemma guess_choice lines st line :
  reachable lines st →
  ((if decide (line = []) then recommendation st else Ok line st)
     = Raise ValueError st ∧ __working_list st = []) ∨
  (∃ guess,
     (if decide (line = []) then recommendation st else Ok line st) = Ok guess st ∧
     (guess ∈ __working_list st ∨ (guess = line ∧ line ≠ []))).
Proof.
  intros Hreach. destruct (decide (line = [])) as [->|Hline].
  - destruct (recommendation_result lines st Hreach) as [[? ?]|(w & ? & ?)].
    + by left.
    + right. exists w. split; [done|by left].
  - right. exists line. split; [done|by right].
Qed.

Lemma game_loop_ok lines n stdin key st out :
  (length stdin ≤ n)%nat →
  reachable lines st →
  0 ≤ __guess_number st ≤ 6 →
  run_ok lines (guesses_asked out + 6 - Z.to_nat (__guess_number st)) stdin
         (game_loop stdin key st out).
Proof.
  revert stdin key st out.
  induction n as [n IH] using lt_wf_ind.
  intros stdin key st out Hlen Hreach Hgn.
  assert (bool_decide (__guess_number st < 6) && bool_decide (key ≠ s "ggggg")
          = false →
          run_ok lines (guesses_asked out + 6 - Z.to_nat (__guess_number st)) stdin
                 (mkRun out st key Exited)) as Hexit.
  { intros Hcond. apply andb_false_iff in Hcond.
    rewrite !bool_decide_eq_false in Hcond.
    unfold run_ok. cbn [wordle stdout result_key ended].
    split_and!; [lia|lia| |done].
    intros _. destruct Hcond as [?|Hkey]; [left; lia|right].
    by destruct (decide (key = s "ggggg")). }
  destruct stdin as [|line [|key' stdin]];
    cbn [game_loop after guess_number get ret bind];
    (destruct (bool_decide (__guess_number st < 6) && bool_decide (key ≠ s "ggggg"))
       eqn:Hcond; [|by apply Hexit]);
    apply andb_true_iff in Hcond as [Hlt%bool_decide_eq_true _].
  - (* no line for the guess *)
    unfold run_ok. cbn [wordle stdout result_key ended].
    rewrite guesses_asked_app. simpl. split_and!; [lia|lia|done|done].
  - (* a guess, no line for the result *)
    destruct (guess_choice lines st line Hreach) as [[-> Hwl]|(guess & -> & _)];
      unfold run_ok; cbn [after enter_guess bind modify wordle stdout result_key ended];
      rewrite ?guesses_asked_app; simpl.
    + split_and!; [lia|lia|done|]. intros e [= <-]. by left.
    + split_and!; [lia|lia|done|done].
  - (* a guess and a result *)
    destruct (guess_choice lines st line Hreach) as [[-> Hwl]|(guess & -> & Hguess)];
      cbn [after].
    { unfold run_ok. cbn [wordle stdout result_key ended].
      rewrite guesses_asked_app. simpl.
      split_and!; [lia|lia|done|]. intros e [= <-]. by left. }
    cbn [after enter_guess bind modify].
    set (st2 := set_guess_number _ (set_current_guess guess st)).
    assert (reachable lines st2) as Hreach2.
    { by apply (reach_call lines st (EnterGuess guess)). }
    destruct (enter_result key' st2) as [[] st3|e st3] eqn:Hresult; cbn [after].
    + assert (reachable lines st3) as Hreach3.
      { by apply (reach_call lines st2 (EnterResult key')). }
      apply enter_result_guess_number in Hresult as Hgn3.
      cbn [after remaining_possible_words bind get ret].
      destruct (recommendation_result lines st3 Hreach3)
        as [[Hwl3 ->]|(w & _ & ->)]; cbn [after].
      * unfold run_ok. cbn [wordle stdout result_key ended].
        rewrite !guesses_asked_app. simpl.
        split_and!; [by rewrite Hgn3; simpl; lia|lia|done|].
        intros e [= <-]. by left.
      * eapply run_ok_weaken; [| |apply (IH (length stdin))];
          [|by intros (_ & _ & ?)|simpl in Hlen; lia|done|done|by rewrite Hgn3; simpl; lia].
        rewrite !guesses_asked_app, Hgn3. simpl. lia.
    + apply enter_result_raise in Hresult as Hraise. destruct Hraise as [-> Hgn3].
      unfold run_ok. cbn [wordle stdout result_key ended].
      rewrite !guesses_asked_app. simpl.
      split_and!; [by rewrite Hgn3; simpl; lia|lia|done|].
      intros e [= <-]. right. split; [done|].
      intros (Hlines & Hline & Hkey' & _).
      rewrite enter_result_steps in Hresult; [done|].
      pose proof (reachable_words_length lines st Hlines Hreach) as Hwords.
      split_and!; [done| |done].
      simpl. destruct Hguess as [Hin|[-> Hne]].
      * rewrite Forall_forall in Hwords. by apply Hwords.
      * by destruct Hline.
Qed.

Lemma main_ok lines stdin :
  run_ok lines 6 (drop 1 stdin) (main lines stdin).
Proof.
  unfold main. destruct stdin as [|show_instructions stdin].
  { unfold run_ok. cbn [wordle stdout result_key ended].
    destruct (new_solver_lists lines) as (_ & _ & ->).
    split_and!; [lia|simpl; lia|done|done]. }
  cbn [after remaining_possible_words bind get ret drop].
  destruct (new_solver_lists lines) as (_ & _ & Hgn0).
  set (out := if bool_decide _ then _ else _).
  assert (guesses_asked out = 0%nat) as Hout.
  { unfold out. by case_bool_decide. }
  destruct (recommendation_result lines (new_solver lines) (reach_new lines))
    as [[Hwl ->]|(w & _ & ->)]; cbn [after].
  - unfold run_ok. cbn [wordle stdout result_key ended]. rewrite Hgn0, Hout.
    split_and!; [lia|lia|done|]. intros e [= <-]. by left.
  - eapply run_ok_weaken; [|done|apply (game_loop_ok lines (length stdin))];
      [|done|apply reach_new|rewrite Hgn0; lia].
    rewrite guesses_asked_app, Hout, Hgn0. simpl. lia.
Qed.

(** X11. Whatever is typed, the program counts at most six guesses and asks
    for a guess at most six times. *)
Theorem X11_at_most_six_guesses lines stdin :
  __guess_number (wordle (main lines stdin)) ≤ 6 ∧
  (guesses_asked (stdout (main lines stdin)) ≤ 6)%nat.
Proof. destruct (main_ok lines stdin) as (? & ? & _). done. Qed.

(** X12. When the program runs to its end, six guesses have been made or
    the last result entered is [ggggg]. *)
Theorem X12_exit_after_six_guesses_or_all_green lines stdin :
  ended (main lines stdin) = Exited →
  __guess_number (wordle (main lines stdin)) = 6 ∨
  result_key (main lines stdin) = s "ggggg".
Proof. destruct (main_ok lines stdin) as (_ & _ & Hexit & _). done. Qed.





(** X14. With an empty vocabulary file the program stops with [ValueError]
    at the first status line, as soon as the question about the
    instructions is answered: it never asks for a guess. *)
Theorem X14_empty_vocabulary show_instructions stdin :
  ended (main [] (show_instructions :: stdin)) = Uncaught ValueError ∧
  guesses_asked (stdout (main [] (show_instructions :: stdin))) = 0%nat.
Proof.
  unfold main. cbn [after remaining_possible_words bind get ret].
  destruct (recommendation_result [] (new_solver []) (reach_new []))
    as [[Hwl ->]|(w & Hw & _)].
  - cbn [after ended stdout]. split; [done|]. by case_bool_decide.
  - destruct (new_solver_lists []) as (_ & Hwl & _). rewrite Hwl in Hw.
    by apply elem_of_nil in Hw.
Qed.

End Proofs.

(** ** The claims on the sample solver *)

Lemma centi_strict_order : StrictOrder (float_lt (E:=centi)).
Proof.
  split.
  - intros a Ha. unfold float_lt in Ha. simpl in Ha.
    apply bool_decide_eq_true in Ha. lia.
  - intros a b c Hab Hbc. unfold float_lt in *. simpl in *.
    apply bool_decide_eq_true in Hab, Hbc. apply bool_decide_eq_true. lia.
Qed.

Lemma centi_negatively_transitive : negatively_transitive (E:=centi).
Proof.
  intros a b c Hab Hbc. unfold float_lt in *. simpl in *.
  rewrite bool_decide_eq_true in Hab, Hbc |- *. lia.
Qed.

Lemma sample_guessed_reachable : reachable sample_words sample_guessed.
Proof.
  apply (reach_call sample_words sample_solver (EnterGuess (s "crane"))).
  - apply reach_new.
  - reflexivity.
Defined.

Lemma sample_words_length : Forall (λ w : str, length w = 5%nat) sample_words.
Proof. repeat constructor. Defined.

Lemma sample_guessed_up_to_date : up_to_date sample_words sample_guessed.
Proof.
  apply (fresh_guess sample_words sample_solver (s "crane")).
  - apply fresh_new.
  - reflexivity.
Defined.

Lemma sample_guessed_attainable : attainable sample_words sample_guessed.
Proof.
  apply (attain_call sample_words sample_solver (EnterGuess (s "crane"))).
  apply attain_new.
Defined.

(** The state an [enter_result] that raised leaves: after the guess [table]
    the key [-] has its first character looked at, which removes [table]
    from the working list, and has no second character. *)
Lemma sample_stale_attainable : attainable sample_words sample_stale.
Proof.
  apply (attain_call sample_words _ (EnterResult (s "-"))).
  apply (attain_call sample_words _ (EnterGuess (s "table"))).
  apply attain_new.
Defined.

Lemma sample_stale_raised :
  enter_result (s "-") (state_of (enter_guess (s "table") sample_solver)) =
  Raise IndexError sample_stale.
Proof. reflexivity. Defined.

(** The letter [p] occurs twice in the sample vocabulary, both times in
    [apple], the only word that contains it: the table holds 2, not 1. *)
Lemma C1_counterexample :
  reachable sample_words sample_solver ∧
  counter_get (__letter_count sample_solver) "p" = 2 ∧
  words_containing "p" (__working_list sample_solver) = 1.
Proof. split; [apply reach_new|]. by vm_compute. Qed.

Lemma C1_witness :
  counter_get (__letter_count sample_guessed) "p" =
  letter_occurrences "p" (__working_list sample_guessed) ∧
  ∀ result_key,
    match enter_result result_key sample_guessed with
    | Ok _ st' =>
        counter_get (__letter_count st') "p" =
        letter_occurrences "p" (__working_list st')
    | Raise _ st' => __letter_count st' = __letter_count sample_guessed
    end.
Proof.
  destruct (C1_letter_count_occurrences (E:=centi) sample_words sample_guessed "p")
    as [Hnow Hafter].
  - apply sample_guessed_attainable.
  - split; [apply Hnow, sample_guessed_up_to_date|exact Hafter].
Defined.

Lemma C2_witness :
  ∃ st',
    enter_result (s "--y-g") sample_guessed = Ok () st' ∧
    __working_list st' =
      filter (consistent (s "crane") (s "--y-g")) sample_words ∧
    ∀ indices, indices ≡ₚ seq 0 5 →
      refine_in_order indices (s "crane") (s "--y-g") sample_guessed = Ok () st'.
Proof.
  apply (C2_feedback_filters_candidates (E:=centi) sample_words sample_guessed
           (s "--y-g")).
  - apply sample_words_length.
  - apply sample_guessed_reachable.
  - reflexivity.
  - reflexivity.
  - repeat constructor.
Defined.

(** After the guess [crane], the key [ggggg] leaves no candidate, and
    [enter_result] returns all the same. *)
Lemma C3_counterexample :
  __working_list (state_of (enter_result (s "ggggg") sample_guessed)) = [] ∧
  raised (enter_result (s "ggggg") sample_guessed) = None.
Proof. by vm_compute. Qed.

Lemma C3_witness :
  ∃ st',
    enter_result (s "ggggg") sample_guessed = Ok () st' ∧
    __working_list st' = [] ∧
    __scored_words st' = [] ∧
    recommendation st' = Raise ValueError st'.
Proof.
  apply (C3_no_candidates_left (E:=centi) sample_words sample_guessed (s "ggggg")).
  - apply sample_words_length.
  - apply sample_guessed_reachable.
  - reflexivity.
  - reflexivity.
  - vm_compute. reflexivity.
Defined.

(** A key of six characters is accepted: no exception is raised. *)
Lemma C4_counterexample :
  length (s "--y-gg") ≠ 5%nat ∧
  raised (enter_result (s "--y-gg") sample_guessed) = None ∧
  __working_list (state_of (enter_result (s "--y-gg") sample_guessed)) =
    [s "apple"; s "table"].
Proof. split; [by vm_compute|]. by vm_compute. Qed.

Lemma C4_witness :
  (∃ l, l `sublist_of` __working_list sample_guessed ∧
        enter_result (s "--y-") sample_guessed =
        Raise IndexError (set_working_list l sample_guessed)) ∧
  enter_result (s "--y-gg") sample_guessed =
  enter_result (take 5 (s "--y-gg")) sample_guessed.
Proof.
  split.
  - apply (C4_result_key_length (E:=centi) sample_guessed (s "--y-")).
    + vm_compute. lia.
    + vm_compute. lia.
  - apply (C4_result_key_length (E:=centi) sample_guessed (s "--y-gg")).
    + vm_compute. lia.
    + vm_compute. lia.
Defined.

Lemma C5_witness :
  dict_get (s "apple") (__scored_words sample_solver) =
  Some (@float_add centi
          (float_of_int (unique_letter_sum (__letter_count sample_solver) (s "apple")))
          (float_mul (zipf_frequency (s "apple")) (float_of_int 2))).
Proof.
  apply (C5_score_formula (E:=centi) sample_words sample_solver (s "apple")).
  - apply reach_new.
  - vm_compute. left.
Defined.

Lemma C6_witness :
  __working_list (state_of (enter_result (s "--y-g") sample_guessed))
    `sublist_of` __working_list sample_guessed.
Proof.
  apply (C6_candidates_only_shrink (E:=centi) sample_words sample_guessed
           (s "--y-g")).
  apply sample_guessed_reachable.
Defined.

Lemma C7_witness :
  ∃ st1,
    enter_result (s "--y-g") sample_guessed = Ok () st1 ∧
    enter_result (s "--y-g") st1 = Ok () st1 ∧
    __working_list (state_of (enter_result (s "--y-g") st1)) = __working_list st1.
Proof.
  apply (C7_feedback_idempotent (E:=centi) sample_words sample_guessed (s "--y-g")).
  - apply sample_words_length.
  - apply sample_guessed_reachable.
  - reflexivity.
  - reflexivity.
Defined.

(** After the [enter_result] that raised, [table] has an entry in the score
    table and is no word of the working list. *)
Lemma C8_counterexample :
  attainable sample_words sample_stale ∧
  raised (enter_result (s "-") (state_of (enter_guess (s "table") sample_solver)))
    = Some IndexError ∧
  is_Some (dict_get (s "table") (__scored_words sample_stale)) ∧
  s "table" ∉ __working_list sample_stale.
Proof.
  split_and!; [apply sample_stale_attainable|done|by eexists|].
  vm_compute. intros Hin.
  repeat (apply elem_of_cons in Hin as [Heq|Hin]; [discriminate Heq|]).
  by apply elem_of_nil in Hin.
Qed.

Lemma C8_witness :
  (s "apple" ∈ __working_list sample_stale →
   is_Some (dict_get (s "apple") (__scored_words sample_stale))) ∧
  (is_Some (dict_get (s "table") (__scored_words sample_guessed)) ↔
   s "table" ∈ __working_list sample_guessed) ∧
  ∀ result_key,
    match enter_result result_key sample_stale with
    | Ok _ st' =>
        is_Some (dict_get (s "apple") (__scored_words st')) ↔
        s "apple" ∈ __working_list st'
    | Raise _ st' => __scored_words st' = __scored_words sample_stale
    end.
Proof.
  destruct (C8_score_table_domain (E:=centi) sample_words sample_stale (s "apple"))
    as (Hin & _ & Hafter); [apply sample_stale_attainable|].
  destruct (C8_score_table_domain (E:=centi) sample_words sample_guessed (s "table"))
    as (_ & Hnow & _); [apply sample_guessed_attainable|].
  split_and!; [exact Hin|apply Hnow, sample_guessed_up_to_date|exact Hafter].
Defined.

(** After the [enter_result] that raised, the working list is [apple],
    [angle], and [recommendation] returns [table]. *)
Lemma C9_counterexample :
  attainable sample_words sample_stale ∧
  __working_list sample_stale = [s "apple"; s "angle"] ∧
  recommendation sample_stale = Ok (s "table") sample_stale ∧
  s "table" ∉ [s "apple"; s "angle"].
Proof.
  split_and!; [apply sample_stale_attainable|done|done|].
  intros Hin.
  repeat (apply elem_of_cons in Hin as [Heq|Hin]; [discriminate Heq|]).
  by apply elem_of_nil in Hin.
Qed.

Lemma C9_witness :
  ∃ w sw,
    recommendation sample_guessed = Ok w sample_guessed ∧
    (up_to_date sample_words sample_guessed → w ∈ __working_list sample_guessed) ∧
    dict_get w (__scored_words sample_guessed) = Some sw ∧
    ∀ x sx, x ∈ __working_list sample_guessed →
            dict_get x (__scored_words sample_guessed) = Some sx →
            ¬ float_lt (E:=centi) sw sx.
Proof.
  apply (C9_recommendation_is_best_candidate (E:=centi) sample_words sample_guessed).
  - apply centi_strict_order.
  - apply sample_guessed_attainable.
  - vm_compute. discriminate.
Defined.

(** A vocabulary file with a repeated line gives a working list with a
    repeated word. *)
Lemma C10_counterexample :
  reachable repeated_words (new_solver (E:=centi) repeated_words) ∧
  ¬ NoDup (__working_list (new_solver (E:=centi) repeated_words)).
Proof.
  split; [apply reach_new|].
  intros Hnodup. vm_compute in Hnodup.
  apply NoDup_cons in Hnodup as [Hnin _]. apply Hnin. left.
Qed.

Lemma C10_witness :
  NoDup (__working_list sample_solver) ∧
  ∃ pre w post sw,
    recommendation sample_solver = Ok w sample_solver ∧
    __working_list sample_solver = pre ++ w :: post ∧
    (w ∉ pre) ∧
    dict_get w (__scored_words sample_solver) = Some sw ∧
    (∀ x, x ∈ pre →
       ∃ sx, dict_get x (__scored_words sample_solver) = Some sx ∧
             float_lt (E:=centi) sx sw) ∧
    (∀ x, x ∈ post →
       ∃ sx, dict_get x (__scored_words sample_solver) = Some sx ∧
             ¬ float_lt (E:=centi) sw sx).
Proof.
  destruct (C10_recommendation_earliest_best (E:=centi) sample_words sample_solver)
    as (_ & Hnodup & _ & Hrec).
  - apply centi_strict_order.
  - apply centi_negatively_transitive.
  - apply attain_new.
  - split; [apply Hnodup; compute_done|].
    apply Hrec; [apply fresh_new|]. vm_compute. discriminate.
Defined.

(** ** The further properties on the sample solver *)

Lemma sample_words_NoDup : NoDup sample_words.
Proof. compute_done. Defined.

Lemma X1_witness :
  ∃ st,
    play_rounds [(s "crane", s "--y-g")] sample_solver = Ok () st ∧
    __working_list st =
      filter (λ w, Forall (λ round : str * str, consistent round.1 round.2 w)
                          [(s "crane", s "--y-g")]) sample_words ∧
    remaining_possible_words st =
      Ok (Z.of_nat
            (length (filter (λ w, Forall (λ round : str * str,
                                            consistent round.1 round.2 w)
                                         [(s "crane", s "--y-g")])
                            sample_words))) st ∧
    guess_number st = Ok (Z.of_nat (length [(s "crane", s "--y-g")])) st.
Proof.
  apply (X1_candidates_after_rounds (E:=centi) sample_words
           [(s "crane", s "--y-g")]).
  - apply sample_words_length.
  - repeat constructor.
Defined.

Lemma X2_witness :
  guess_number
    (state_of (run_calls [EnterGuess (s "crane"); EnterResult (s "--y-g");
                          EnterGuess (s "apple")] sample_solver)) =
  Ok 2
     (state_of (run_calls [EnterGuess (s "crane"); EnterResult (s "--y-g");
                           EnterGuess (s "apple")] sample_solver)).
Proof.
  apply (X2_guess_number_counts_guesses (E:=centi) sample_words
           [EnterGuess (s "crane"); EnterResult (s "--y-g");
            EnterGuess (s "apple")]).
  vm_compute. reflexivity.
Defined.

Lemma X3_witness :
  ∃ st',
    enter_result (s "ggggg") (state_of (enter_guess (s "table") sample_solver))
      = Ok () st' ∧
    __working_list st' = [s "table"] ∧
    recommendation st' = Ok (s "table") st'.
Proof.
  apply (X3_all_green_leaves_the_guess (E:=centi) sample_words
           (state_of (enter_guess (s "table") sample_solver))).
  - apply sample_words_length.
  - apply sample_words_NoDup.
  - apply (reach_call sample_words sample_solver (EnterGuess (s "table")));
      [apply reach_new|reflexivity].
  - vm_compute. right. right. left.
Defined.

Lemma X4_witness :
  ∃ st',
    enter_result (s "-g---") (state_of (enter_guess (s "apple") sample_solver))
      = Ok () st' ∧
    __working_list st' = [].
Proof.
  apply (X4_gray_and_coloured_letter_leaves_nothing (E:=centi) sample_words
           (state_of (enter_guess (s "apple") sample_solver)) (s "-g---")
           2%nat 1%nat "p").
  - apply sample_words_length.
  - apply (reach_call sample_words sample_solver (EnterGuess (s "apple")));
      [apply reach_new|reflexivity].
  - reflexivity.
  - reflexivity.
  - reflexivity.
  - reflexivity.
  - reflexivity.
  - left. reflexivity.
Defined.

Lemma X5_witness :
  ∃ st,
    play_rounds ((λ guess, (guess, docstring_key (s "table") guess))
                   <$> [s "crane"; s "apple"]) sample_solver = Ok () st ∧
    s "table" ∈ __working_list st.
Proof.
  apply (X5_docstring_keys_keep_the_puzzle_word (E:=centi) sample_words
           (s "table") [s "crane"; s "apple"]).
  - apply sample_words_length.
  - vm_compute. right. right. left.
  - repeat constructor.
Defined.

Lemma X7_witness :
  ∃ top,
    __get_recommendation 2 sample_solver = Ok top sample_solver ∧
    length top =
      (Z.to_nat 2 `min` length (remove_dups (__working_list sample_solver)))%nat ∧
    NoDup (dict_keys top) ∧
    ∀ w score, (w, score) ∈ top →
      w ∈ __working_list sample_solver ∧
      dict_get w (__scored_words sample_solver) = Some score.
Proof.
  apply (X7_top_recommendations_are_scored_candidates (E:=centi) sample_words).
  - apply reach_new.
  - lia.
Defined.

Lemma X8_witness :
  ∃ top,
    __get_recommendation 2 sample_solver = Ok top sample_solver ∧
    descending top ∧
    ∀ w score x score_x,
      (w, score) ∈ top →
      dict_get x (__scored_words sample_solver) = Some score_x →
      x ∉ dict_keys top →
      ¬ float_lt (E:=centi) score score_x.
Proof.
  apply (X8_top_recommendations_are_the_best (E:=centi) sample_words).
  - apply centi_strict_order.
  - apply centi_negatively_transitive.
  - apply reach_new.
Defined.

Lemma X9_witness :
  ∃ w score rest,
    __get_recommendation 2 sample_solver = Ok ((w, score) :: rest) sample_solver ∧
    recommendation sample_solver = Ok w sample_solver.
Proof.
  apply (X9_first_top_recommendation_is_the_recommendation (E:=centi)
           sample_words).
  - apply centi_strict_order.
  - apply centi_negatively_transitive.
  - apply reach_new.
  - lia.
  - vm_compute. discriminate.
Defined.

Lemma X10_witness :
  ∃ all,
    __get_recommendation
      (Z.of_nat (length (__scored_words sample_solver))) sample_solver
      = Ok all sample_solver ∧
    all ≡ₚ __scored_words sample_solver ∧
    __get_recommendation (-1) sample_solver =
      Ok (take (length all - Z.to_nat (- -1)) all) sample_solver.
Proof.
  apply (X10_negative_count_drops_the_last (E:=centi) sample_words).
  - apply reach_new.
  - lia.
Defined.

Lemma X12_witness :
  __guess_number
    (wordle (main (E:=centi) sample_words [s "n"; s "table"; s "ggggg"])) = 6 ∨
  result_key (main (E:=centi) sample_words [s "n"; s "table"; s "ggggg"])
    = s "ggggg".
Proof.
  apply (X12_exit_after_six_guesses_or_all_green (E:=centi) sample_words).
  vm_compute. reflexivity.
Defined.


End WordleSolver.

(** * Properties of the jumble solver *)

Module JumbleSolverFacts.
Import JumbleSolver.

Lemma elem_of_permutations_n {A} n (pool w : list A) :
  length pool = n → w ∈ permutations_n n pool ↔ pool ≡ₚ w.
Proof.
  revert pool w. induction n as [|n IH]; intros pool w Hlen; simpl.
  - apply nil_length_inv in Hlen as ->. rewrite list_elem_of_singleton.
    split; [by intros ->|]. intros Hw. by apply Permutation_nil in Hw.
  - rewrite list_elem_of_join. split.
    + intros (l & Hw & (i & x & -> & Hx)%elem_of_lookup_imap).
      apply list_elem_of_fmap in Hw as (w' & -> & Hw').
      apply IH in Hw'.
      * rewrite <-Hw'. by apply delete_Permutation.
      * rewrite length_delete by done. lia.
    + intros Hperm. destruct w as [|x w'].
      { apply Permutation_length in Hperm. simpl in Hperm. lia. }
      assert (x ∈ pool) as Hx by (rewrite Hperm; left).
      apply list_elem_of_lookup in Hx as [i Hi].
      exists ((x ::.) <$> permutations_n n (delete i pool)). split.
      * apply list_elem_of_fmap. exists w'. split; [done|].
        apply IH; [rewrite length_delete by done; lia|].
        apply (Permutation_cons_inv (a:=x)).
        by rewrite <-delete_Permutation.
      * by apply (elem_of_lookup_imap_2
                    (λ i x, (x ::.) <$> permutations_n n (delete i pool))).
Qed.

Lemma elem_of_permutations {A} (pool w : list A) :
  w ∈ permutations pool ↔ pool ≡ₚ w.
Proof. by apply elem_of_permutations_n. Qed.

Lemma fmap_Permutation_inv {A B} (f : A → B) (l : list A) (k : list B) :
  k ≡ₚ f <$> l → ∃ l', k = f <$> l' ∧ l ≡ₚ l'.
Proof.
  replace (f <$> l) with (map f l).
  - intros (l' & -> & Hl')%Permutation_map_inv. exists l'. split; [|done].
    clear. induction l' as [|x l' IH]; simpl; [done|]. by rewrite IH.
  - clear. induction l as [|x l IH]; simpl; [done|]. by rewrite IH.
Qed.

Section Facts.

(** The spell checker, as the library has it with the settings of
    [SpellChecker()]: [known] puts every word it is offered in lower case,
    and returns those of the lower-cased words that it accepts, which are
    the words of its dictionary that it does not skip.  [lower_char] is the
    lower case of a character, [dictionary] the set of the words accepted. *)
Variable dictionary : str → Prop.
Variable lower_char : ascii → ascii.
Variable known : list str → list str.
Hypothesis known_spec :
  ∀ words w,
    w ∈ known words ↔
    ∃ offered, offered ∈ words ∧ w = lower_char <$> offered ∧ dictionary w.

Lemma jumble_solver_returned scrambled word :
  jumble_solver known scrambled = Returned word →
  lower_char <$> scrambled ≡ₚ word ∧ dictionary word.
Proof.
  unfold jumble_solver, pop.
  destruct (known (permutations scrambled)) as [|w answer] eqn:Hknown; [done|].
  intros [= ->].
  assert (word ∈ known (permutations scrambled)) as Hin by (rewrite Hknown; left).
  apply known_spec in Hin as (offered & Hperm & -> & Hdict).
  apply elem_of_permutations in Hperm. split; [|done].
  by apply fmap_Permutation.
Qed.

Lemma jumble_solver_key_error scrambled :
  jumble_solver known scrambled = KeyError ↔
  ∀ w, lower_char <$> scrambled ≡ₚ w → ¬ dictionary w.
Proof.
  unfold jumble_solver, pop. split.
  - destruct (known (permutations scrambled)) as [|w0 answer] eqn:Hknown; [|done].
    intros _ w Hperm Hdict. symmetry in Hperm.
    apply fmap_Permutation_inv in Hperm as (offered & -> & Hoffered).
    assert (lower_char <$> offered ∈ known (permutations scrambled)) as Hin.
    { apply known_spec. exists offered.
      split_and!; [by apply elem_of_permutations|done|done]. }
    rewrite Hknown in Hin. by apply elem_of_nil in Hin.
  - intros Hnone.
    destruct (known (permutations scrambled)) as [|w0 answer] eqn:Hknown; [done|].
    assert (w0 ∈ known (permutations scrambled)) as Hin by (rewrite Hknown; left).
    apply known_spec in Hin as (offered & Hperm & -> & Hdict).
    apply elem_of_permutations in Hperm.
    destruct (Hnone (lower_char <$> offered)); [|done].
    by apply fmap_Permutation.
Qed.

(** X15. Provided [known] returns the lower-cased forms of the words it is
    offered that the spell checker accepts, a word that [jumble_solver]
    returns is accepted by the spell checker and is a rearrangement of the
    scrambled letters put in lower case: it has the same letters, each as
    many times. *)
Theorem X15_answer_is_a_known_rearrangement scrambled word :
  jumble_solver known scrambled = Returned word →
  lower_char <$> scrambled ≡ₚ word ∧
  length word = length scrambled ∧
  dictionary word.
Proof.
  intros Hr. apply jumble_solver_returned in Hr as [Hperm Hdict].
  split_and!; [done|by rewrite <-Hperm, length_fmap|done].
Qed.

(** X16. Provided [known] returns the lower-cased forms of the words it is
    offered that the spell checker accepts, [jumble_solver] raises
    [KeyError] exactly when the spell checker accepts no rearrangement of
    the scrambled letters put in lower case. *)
Theorem X16_key_error_when_nothing_is_known scrambled :
  jumble_solver known scrambled = KeyError ↔
  ∀ w, lower_char <$> scrambled ≡ₚ w → ¬ dictionary w.
Proof. apply jumble_solver_key_error. Qed.

(** X17. Provided [known] returns the lower-cased forms of the words it is
    offered that the spell checker accepts: when the jumble, put in lower
    case, has one solution only, as the comment in the code assumes, that
    solution is what [jumble_solver] returns. *)
Theorem X17_the_only_solution_is_returned scrambled word :
  lower_char <$> scrambled ≡ₚ word →
  dictionary word →
  (∀ w, lower_char <$> scrambled ≡ₚ w → dictionary w → w = word) →
  jumble_solver known scrambled = Returned word.
Proof.
  intros Hperm Hdict Honly.
  destruct (jumble_solver known scrambled) as [w|] eqn:Hr.
  - apply jumble_solver_returned in Hr as [Hw Hdw]. f_equal. by apply Honly.
  - pose proof (proj1 (jumble_solver_key_error scrambled) Hr) as Hnone.
    by destruct (Hnone word).
Qed.

(** X18. Provided [known] returns the lower-cased forms of the words it is
    offered that the spell checker accepts: when the program runs to its
    end, it has read four jumbles, each followed by its circled letters, and
    solved each of them by a rearrangement of its letters put in lower case;
    the final answer is a word the spell checker accepts, made of all the
    circled letters put in lower case, in some order. *)
Theorem X18_final_answer_uses_the_circled_letters stdin :
  ended (main known stdin) = Exited →
  ∃ j1 c1 j2 c2 j3 c3 j4 c4 rest w1 w2 w3 w4 final,
    stdin = j1 :: c1 :: j2 :: c2 :: j3 :: c3 :: j4 :: c4 :: rest ∧
    stdout (main known stdin) =
      [AskJumble 1; Solved w1; AskLetters; AskJumble 2; Solved w2; AskLetters;
       AskJumble 3; Solved w3; AskLetters; AskJumble 4; Solved w4; AskLetters;
       FinalAnswer final] ∧
    lower_char <$> j1 ≡ₚ w1 ∧ lower_char <$> j2 ≡ₚ w2 ∧
    lower_char <$> j3 ≡ₚ w3 ∧ lower_char <$> j4 ≡ₚ w4 ∧
    lower_char <$> (c1 ++ c2 ++ c3 ++ c4) ≡ₚ final ∧ dictionary final.
Proof.
  unfold main. cbn [seq].
  destruct stdin as [|j1 [|c1 [|j2 [|c2 [|j3 [|c3 [|j4 [|c4 rest]]]]]]]];
    cbn [jumble_loop];
    repeat match goal with
           | |- context [jumble_solver known ?x] =>
               let H := fresh "Hsolved" in
               destruct (jumble_solver known x) eqn:H; cbn [jumble_loop]
           end;
    try (intros Hend; discriminate Hend).
  intros _.
  repeat match goal with
         | H : jumble_solver known _ = Returned _ |- _ =>
             apply jumble_solver_returned in H as [? ?]
         end.
  do 14 eexists. split_and!; try done.
  match goal with H : lower_char <$> _ ++ c4 ≡ₚ _ |- _ => rewrite <-H end.
  by rewrite <-!app_assoc.
Qed.

End Facts.

(** ** On the sample spell checker *)

Lemma sample_known_spec words w :
  w ∈ sample_known words ↔
  ∃ offered,
    offered ∈ words ∧ w = sample_lower <$> offered ∧ sample_dictionary w.
Proof.
  unfold sample_known.
  rewrite elem_of_remove_dups, list_elem_of_filter, list_elem_of_fmap. split.
  - intros (Hdict & offered & -> & Hin). by exists offered.
  - intros (offered & Hin & -> & Hdict). split; [done|]. by exists offered.
Qed.

Lemma X15_witness :
  sample_lower <$> s "TAC" ≡ₚ s "cat" ∧ length (s "cat") = length (s "TAC") ∧
  sample_dictionary (s "cat").
Proof.
  apply (X15_answer_is_a_known_rearrangement sample_dictionary sample_lower
           sample_known sample_known_spec (s "TAC") (s "cat")).
  vm_compute. reflexivity.
Defined.

Lemma X16_witness :
  jumble_solver sample_known (s "xyz") = KeyError ↔
  ∀ w, sample_lower <$> s "xyz" ≡ₚ w → ¬ sample_dictionary w.
Proof.
  apply (X16_key_error_when_nothing_is_known sample_dictionary sample_lower
           sample_known sample_known_spec (s "xyz")).
Defined.

Lemma X17_witness : jumble_solver sample_known (s "Tac") = Returned (s "cat").
Proof.
  apply (X17_the_only_solution_is_returned sample_dictionary sample_lower
           sample_known sample_known_spec (s "Tac") (s "cat")).
  - compute_done.
  - compute_done.
  - intros w Hperm Hdict. unfold sample_dictionary in Hdict.
    repeat apply elem_of_cons in Hdict as [->|Hdict].
    + reflexivity.
    + exfalso. revert Hperm. compute_done.
    + exfalso. revert Hperm. compute_done.
    + by apply elem_of_nil in Hdict.
Defined.

Lemma X18_witness :
  ∃ j1 c1 j2 c2 j3 c3 j4 c4 rest w1 w2 w3 w4 final,
    [s "tac"; s "C"; s "god"; s "o"; s "ATC"; s "d"; s "odg"; s "E"] =
      j1 :: c1 :: j2 :: c2 :: j3 :: c3 :: j4 :: c4 :: rest ∧
    stdout (main sample_known
              [s "tac"; s "C"; s "god"; s "o"; s "ATC"; s "d"; s "odg"; s "E"]) =
      [AskJumble 1; Solved w1; AskLetters; AskJumble 2; Solved w2; AskLetters;
       AskJumble 3; Solved w3; AskLetters; AskJumble 4; Solved w4; AskLetters;
       FinalAnswer final] ∧
    sample_lower <$> j1 ≡ₚ w1 ∧ sample_lower <$> j2 ≡ₚ w2 ∧
    sample_lower <$> j3 ≡ₚ w3 ∧ sample_lower <$> j4 ≡ₚ w4 ∧
    sample_lower <$> (c1 ++ c2 ++ c3 ++ c4) ≡ₚ final ∧ sample_dictionary final.
Proof.
  apply (X18_final_answer_uses_the_circled_letters sample_dictionary
           sample_lower sample_known sample_known_spec).
  vm_compute. reflexivity.
Defined.

End JumbleSolverFacts.
